(** * Closure primitives and closure colours (oslclosure.h)

    A shallow embedding of the classes declared in
    [src/include/oslclosure.h]: the primitive descriptor
    [ClosurePrimitive], its two contract subclasses [BSDFClosure] and
    [EmissiveClosure], and the weighted closure buffer [ClosureColor]
    with its private [Component] struct.

    Conventions.
    - A C++ [int] is a [Z]; a [size_t] (a vector's size, a type's byte
      size) is a [nat].  Where the header itself converts or adds
      ([(int) m_components.size()], [memoffset + argoffset]) the
      conversion is written out in [Int].
    - [std::vector<T>] is [list T], indexed with stdpp's lookup; an index
      out of range has no result.  A vector's capacity is no part of a
      buffer's value; where it matters, when [m_components] grows past
      it, it is an argument ([add_component_cap], [add_cap]).
    - [std::vector<char> m_mem] is a [list byte]; a [const void *] argument
      is the list of bytes readable from that address ([None] for NULL
      where NULL is allowed).
    - [const ClosurePrimitive *] is the descriptor pointed to: descriptors
      are immutable once constructed.
    - [float] is IEEE binary32, as [spec_float] with precision 24 and
      maximal exponent 128.
    - Inline member functions are translated from their bodies.  Member
      functions that the header only declares are modelled from the
      specification; each such definition says so. *)

From Stdlib Require Import ZArith Lia String Ascii List Strings.Byte.
From Stdlib Require Import Floats.SpecFloat.
From stdpp Require Import base option list gmap strings.

Local Open Scope Z_scope.

(** ** Machine integers *)

Module Int.

Definition INT_MIN : Z := - 2 ^ 31.
Definition INT_MAX : Z := 2 ^ 31 - 1.

Definition in_range (z : Z) : bool := (INT_MIN <=? z) && (z <=? INT_MAX).

(** Conversion to [int] of an integer value: reduction modulo 2^32 into
    the signed range. *)
Definition wrap (z : Z) : Z := (z + 2 ^ 31) mod 2 ^ 32 - 2 ^ 31.

(** [(int) n] for a [size_t] n. *)
Definition of_size (n : nat) : Z := wrap (Z.of_nat n).

(** [x + y] on [int]: signed overflow is undefined, so there is no
    result. *)
Definition add (x y : Z) : option Z :=
  if in_range (x + y) then Some (x + y) else None.

(** [v[i]] for an [int] i: the index converted to [size_t]. *)
Definition index (i : Z) : option nat :=
  if 0 <=? i then Some (Z.to_nat i) else None.

End Int.

(** [v[i]] on a vector: no result outside [0, size). *)
Definition vector_at {A : Type} (v : list A) (i : Z) : option A :=
  n ← Int.index i; v !! n.

(** ** External types

    [TypeDesc] comes from OpenImageIO and [Color3] from Imath; the header
    only uses them.  [TypeDesc] is an interface here: the type, its
    [size()] in bytes, and the type denoted by a one-letter argument code
    ("vff" is vector, float, float). *)

Class TypeDescOps := {
  TypeDesc : Type;
  TypeDesc_size : TypeDesc -> nat;
  TypeDesc_of_code : ascii -> option TypeDesc
}.

(** An instance for examples: the letters f, v and c, with the sizes of
    one float and of three floats. *)
Inductive SampleTypeDesc := TypeFloat | TypeVector | TypeColor.

Definition SampleTypeDesc_size (t : SampleTypeDesc) : nat :=
  match t with
  | TypeFloat => 4
  | TypeVector => 12
  | TypeColor => 12
  end.

Definition SampleTypeDesc_of_code (c : ascii) : option SampleTypeDesc :=
  if Ascii.eqb c "f"%char then Some TypeFloat
  else if Ascii.eqb c "v"%char then Some TypeVector
  else if Ascii.eqb c "c"%char then Some TypeColor
  else None.

Definition sample_typedesc : TypeDescOps :=
  {| TypeDesc := SampleTypeDesc;
     TypeDesc_size := SampleTypeDesc_size;
     TypeDesc_of_code := SampleTypeDesc_of_code |}.

(** [float]: IEEE binary32. *)
Definition float : Type := spec_float.
Definition float_mul (a b : float) : float := SFmul 24 128 a b.
Definition float_0 : float := S754_zero false.
Definition float_1 : float := S754_finite false 8388608 (-23).
Definition float_half : float := S754_finite false 8388608 (-24).
Definition float_3 : float := S754_finite false 12582912 (-22).
Definition float_neg2 : float := S754_finite true 8388608 (-22).

(** [Imath::Color3<float>]: three channels; [*=] by a scalar and by a
    colour are channel-wise. *)
Record Color3 := mkColor3 { c_x : float; c_y : float; c_z : float }.

Definition Color3_mul_float (w : Color3) (f : float) : Color3 :=
  mkColor3 (float_mul (c_x w) f) (float_mul (c_y w) f) (float_mul (c_z w) f).

Definition Color3_mul (w v : Color3) : Color3 :=
  mkColor3 (float_mul (c_x w) (c_x v)) (float_mul (c_y w) (c_y v))
           (float_mul (c_z w) (c_z v)).

(** ** ClosurePrimitive *)

Module ClosurePrimitive.

(** [enum Category { BSDF, Emissive }]. *)
Inductive Category := BSDF | Emissive.

(** The enumerator's integer value. *)
Definition Category_to_int (c : Category) : Z :=
  match c with
  | BSDF => 0
  | Emissive => 1
  end.

(** The conversion of an [int] to [Category]; a value that is no
    enumerator has no specified result. *)
Definition Category_of_int (z : Z) : option Category :=
  if z =? 0 then Some BSDF
  else if z =? 1 then Some Emissive
  else None.

Section Descriptor.
Context `{TD : TypeDescOps}.

(** The private data members. *)
Record t := mk {
  m_name : string;
  m_category : Category;
  m_nargs : Z;
  m_argmem : Z;
  m_argtypes : list TypeDesc;
  m_argoffsets : list Z;
  m_argcodes : string
}.

Definition name (p : t) : string := m_name p.
Definition nargs (p : t) : Z := m_nargs p.
Definition argcodes (p : t) : string := m_argcodes p.
Definition argtype (p : t) (i : Z) : option TypeDesc := vector_at (m_argtypes p) i.
Definition argoffset (p : t) (i : Z) : option Z := vector_at (m_argoffsets p) i.
Definition argmem (p : t) : Z := m_argmem p.
Definition category (p : t) : Z := Category_to_int (m_category p).

(** One step of the constructor's pass over the code string: the
    argument of type [ty] is placed at the current total size. *)
Definition push_arg (p : t) (ty : TypeDesc) : t :=
  {| m_name := m_name p;
     m_category := m_category p;
     m_nargs := m_nargs p + 1;
     m_argmem := m_argmem p + Z.of_nat (TypeDesc_size ty);
     m_argtypes := m_argtypes p ++ [ty];
     m_argoffsets := m_argoffsets p ++ [m_argmem p];
     m_argcodes := m_argcodes p |}.

Fixpoint parse_argtypes (codes : list ascii) (p : t) : option t :=
  match codes with
  | [] => Some p
  | c :: rest => ty ← TypeDesc_of_code c; parse_argtypes rest (push_arg p ty)
  end.

(** Modelled from the spec: the body of the constructor
    [ClosurePrimitive (name, argtypes, category)], which the header only
    declares.  It stores the name, the category and the code string,
    parses one argument type per character, gives each argument the
    running sum of the sizes before it as its offset, and stores the
    total; it fails on a letter that denotes no type. *)
Definition new (name argtypes : string) (category : Z) : option t :=
  cat ← Category_of_int category;
  parse_argtypes (list_ascii_of_string argtypes)
    {| m_name := name;
       m_category := cat;
       m_nargs := 0;
       m_argmem := 0;
       m_argtypes := [];
       m_argoffsets := [];
       m_argcodes := argtypes |}.

(** The public member functions are all [const]: a call returns a value
    and leaves the object as it was. *)
Inductive Call :=
| CallName | CallNargs | CallArgcodes | CallArgtype (i : Z)
| CallArgoffset (i : Z) | CallArgmem | CallCategory.

Definition after_call (c : Call) (p : t) : t := p.

(** The byte sizes of a list of argument types, their sum, and their
    exclusive prefix sums from a starting offset. *)
Definition sizes (tys : list TypeDesc) : list Z :=
  (fun ty => Z.of_nat (TypeDesc_size ty)) <$> tys.

Fixpoint sum_list (l : list Z) : Z :=
  match l with
  | [] => 0
  | x :: r => x + sum_list r
  end.

Fixpoint prefix_sums (start : Z) (l : list Z) : list Z :=
  match l with
  | [] => []
  | x :: r => start :: prefix_sums (start + x) r
  end.

(** The layout invariant of a descriptor. *)
Definition layout_ok (p : t) : Prop :=
  m_nargs p = Z.of_nat (length (m_argtypes p)) /\
  m_argoffsets p = prefix_sums 0 (sizes (m_argtypes p)) /\
  m_argmem p = sum_list (sizes (m_argtypes p)).

End Descriptor.

Arguments t {TD}.

End ClosurePrimitive.

(** [BSDFClosure (name, argtypes)] and [EmissiveClosure (name, argtypes)]:
    the base constructor called with the subclass's category. *)
Definition BSDFClosure `{TD : TypeDescOps} (name argtypes : string)
  : option ClosurePrimitive.t :=
  ClosurePrimitive.new name argtypes
    (ClosurePrimitive.Category_to_int ClosurePrimitive.BSDF).

Definition EmissiveClosure `{TD : TypeDescOps} (name argtypes : string)
  : option ClosurePrimitive.t :=
  ClosurePrimitive.new name argtypes
    (ClosurePrimitive.Category_to_int ClosurePrimitive.Emissive).

(** ** Byte memory *)

(** [&mem[off]]: the bytes readable from offset [off] of [mem].  The
    address is computed without a bounds check, as [mem.data () + off],
    so the end of [mem] is an address too, with nothing readable
    behind it; a build that checks [operator[]] refuses [off = size ()]. *)
Definition addr_of (mem : list byte) (off : Z) : option (list byte) :=
  n ← Int.index off;
  if decide (n <= length mem)%nat then Some (drop n mem) else None.

(** [memcpy (&mem[off], data, n)]: the [n] bytes of [mem] from [off] are
    replaced by the first [n] bytes readable at [data].  There is no
    result when the destination leaves [mem] or [data] is shorter than
    [n]. *)
Definition memcpy (mem : list byte) (off : Z) (data : list byte) (n : nat)
  : option (list byte) :=
  o ← Int.index off;
  if decide (o + n <= length mem)%nat then
    if decide (n <= length data)%nat then
      Some (take o mem ++ take n data ++ drop (o + n) mem)
    else None
  else None.

(** A read of [n] bytes at the address [off] bytes behind [p], where
    [mem] is what is readable at [p]: no result when the read leaves
    [mem]. *)
Definition read_bytes (mem : list byte) (off : Z) (n : nat)
  : option (list byte) :=
  d ← addr_of mem off;
  if decide (n <= length d)%nat then Some (take n d) else None.

(** ** ClosureColor::Component *)

Module Component.
Section Component.
Context `{TD : TypeDescOps}.

Record t := mk {
  cprim : ClosurePrimitive.t;
  nargs : Z;
  memoffset : Z;
  weight : Color3
}.

(** [Component (prim, w)]. *)
Definition new (prim : ClosurePrimitive.t) (w : Color3) : t :=
  {| cprim := prim;
     nargs := ClosurePrimitive.nargs prim;
     memoffset := 0;
     weight := w |}.

(** [Component (const Component &x)]: [nargs] is read again from the
    descriptor, and [memoffset] starts at 0. *)
Definition copy (x : t) : t :=
  {| cprim := cprim x;
     nargs := ClosurePrimitive.nargs (cprim x);
     memoffset := 0;
     weight := weight x |}.

(** Assignments to the public members [memoffset] and [weight]. *)
Definition set_memoffset (c : t) (off : Z) : t :=
  {| cprim := cprim c; nargs := nargs c; memoffset := off; weight := weight c |}.

Definition set_weight (c : t) (w : Color3) : t :=
  {| cprim := cprim c; nargs := nargs c; memoffset := memoffset c; weight := w |}.

End Component.

Arguments t {TD}.

End Component.

(** ** ClosureColor *)

Module ClosureColor.
Section ClosureColor.
Context `{TD : TypeDescOps}.

Record t := mk {
  m_components : list Component.t;
  m_mem : list byte
}.

(** [ClosureColor () { }]. *)
Definition new : t := {| m_components := []; m_mem := [] |}.

Definition clear (this : t) : t :=
  {| m_components := []; m_mem := [] |}.

(** The implicit copy constructor: the class declares none, so a buffer
    is copied member by member, and copying [m_components] constructs
    each element with [Component (const Component &)]. *)
Definition copy (x : t) : t :=
  {| m_components := Component.copy <$> m_components x; m_mem := m_mem x |}.

(** Modelled from the spec: the body of [add_component (cprim, weight,
    params)], which the header only declares.  It appends one component
    built by [Component (cprim, weight)], reserves [argmem] bytes at the
    end of the arena, records the slot's offset in the component, and
    copies [argmem] bytes from [params] into the slot.  With the default
    [params = NULL] nothing is copied and the slot keeps the zero bytes
    the arena was grown with.  This is the call on a buffer whose
    [m_components] has room for the component; [add_component_cap] is
    the call at a given capacity. *)
Definition add_component (this : t) (cprim : ClosurePrimitive.t)
    (weight : Color3) (params : option (list byte)) : option t :=
  let oldmemsize := length (m_mem this) in
  let argmem := Z.to_nat (ClosurePrimitive.argmem cprim) in
  let newcomp :=
    Component.set_memoffset (Component.new cprim weight) (Z.of_nat oldmemsize) in
  let mem := m_mem this ++ replicate argmem x00 in
  mem' ← match params with
         | None => Some mem
         | Some data => memcpy mem (Z.of_nat oldmemsize) data argmem
         end;
  Some {| m_components := m_components this ++ [newcomp]; m_mem := mem' |}.

Definition set (this : t) (prim : ClosurePrimitive.t)
    (params : option (list byte)) : option t :=
  add_component (clear this) prim (mkColor3 float_1 float_1 float_1) params.

(** Modelled from the spec: the step of [add] for one component of the
    other buffer, whose arena is appended at offset [base].  The
    component is copied by [Component (const Component &)] and the
    offset of its slot in the grown arena is recorded in the copy. *)
Definition relocate (base : nat) (x : Component.t) : Component.t :=
  Component.set_memoffset (Component.copy x)
    (Z.of_nat base + Component.memoffset x).

(** Modelled from the spec: the body of [add (A)], documented as
    [*this += A], which the header only declares.  It concatenates the
    component lists and the arenas: every component of [A] is copied,
    with its offset recorded relative to the place where [A]'s arena now
    starts.  This is the call on a buffer whose [m_components] has room
    for the components of [A]; [add_cap] is the call at a given
    capacity. *)
Definition add (this A : t) : t :=
  {| m_components :=
       m_components this ++ (relocate (length (m_mem this)) <$> m_components A);
     m_mem := m_mem this ++ m_mem A |}.

(** Modelled from the spec: the body of [add (a, b)], documented as
    [*this = a+b], which the header only declares: the sum is built in
    the emptied buffer. *)
Definition add2 (this a b : t) : t := add (add (clear this) a) b.

(** Growth of [m_components].  A [std::vector] whose size has reached
    its capacity moves to new storage before it takes another element,
    and constructs every stored element there with the element's copy
    constructor, here [Component (const Component &)].  The arena is a
    vector of [char] and keeps its bytes. *)
Definition reallocate (this : t) : t :=
  {| m_components := Component.copy <$> m_components this;
     m_mem := m_mem this |}.

(** Modelled from the spec: [add_component] on a buffer whose
    [m_components] has capacity [cap].  With room for one more
    component it is [add_component]; a full vector moves its stored
    components first. *)
Definition add_component_cap (cap : nat) (this : t)
    (cprim : ClosurePrimitive.t) (weight : Color3)
    (params : option (list byte)) : option t :=
  add_component
    (if decide (length (m_components this) < cap)%nat
     then this else reallocate this)
    cprim weight params.

(** Modelled from the spec: [add (A)] on a buffer whose [m_components]
    has capacity [cap].  With room for the components of [A] it is
    [add]; otherwise the stored components move.  However the body adds
    the components, the vector moves at least once; one move, to the
    final size, is what is modelled. *)
Definition add_cap (cap : nat) (this A : t) : t :=
  add
    (if decide (length (m_components this) + length (m_components A) <= cap)%nat
     then this else reallocate this)
    A.


(** Modelled from the spec: the body of [mul (float f)], which the
    header only declares.  Every component's weight is multiplied in
    place by [f]. *)
Definition mul (this : t) (f : float) : t :=
  {| m_components :=
       (fun c => Component.set_weight c (Color3_mul_float (Component.weight c) f))
         <$> m_components this;
     m_mem := m_mem this |}.

(** Modelled from the spec: the body of [mul (const Color3 &w)], which
    the header only declares.  Every component's weight is multiplied in
    place by [w], channel by channel. *)
Definition mul_Color3 (this : t) (w : Color3) : t :=
  {| m_components :=
       (fun c => Component.set_weight c (Color3_mul (Component.weight c) w))
         <$> m_components this;
     m_mem := m_mem this |}.

Definition ncomponents (this : t) : Z := Int.of_size (length (m_components this)).

Definition component (this : t) (i : Z) : option Component.t :=
  vector_at (m_components this) i.

Definition weight (this : t) (i : Z) : option Color3 :=
  Component.weight <$> component this i.

Definition prim (this : t) (i : Z) : option ClosurePrimitive.t :=
  Component.cprim <$> component this i.

Definition compdata (this : t) (i : Z) : option (list byte) :=
  c ← component this i; addr_of (m_mem this) (Component.memoffset c).

Definition set_parameter (this : t) (component param : Z) (data : list byte)
  : option t :=
  comp ← vector_at (m_components this) component;
  off ← ClosurePrimitive.argoffset (Component.cprim comp) param;
  ty ← ClosurePrimitive.argtype (Component.cprim comp) param;
  dst ← Int.add (Component.memoffset comp) off;
  mem ← memcpy (m_mem this) dst data (TypeDesc_size ty);
  Some {| m_components := m_components this; m_mem := mem |}.

(** The packed parameter bytes of the [i]-th component: the [argmem]
    bytes at [compdata (i)]. *)
Definition params_of (this : t) (i : Z) : option (list byte) :=
  c ← component this i;
  d ← addr_of (m_mem this) (Component.memoffset c);
  Some (take (Z.to_nat (ClosurePrimitive.argmem (Component.cprim c))) d).

(** The value of parameter [p] of the [i]-th component as a user of
    [compdata], [argoffset] and [argtype] reads it: [argtype (p).size ()]
    bytes at [compdata (i)] plus [argoffset (p)]. *)
Definition parameter_bytes (this : t) (i p : Z) : option (list byte) :=
  c ← component this i;
  off ← ClosurePrimitive.argoffset (Component.cprim c) p;
  ty ← ClosurePrimitive.argtype (Component.cprim c) p;
  d ← compdata this i;
  read_bytes d off (TypeDesc_size ty).

(** The parameter slots of two components do not overlap. *)
Definition slots_disjoint (x y : Component.t) : Prop :=
  Component.memoffset x + ClosurePrimitive.argmem (Component.cprim x)
    <= Component.memoffset y \/
  Component.memoffset y + ClosurePrimitive.argmem (Component.cprim y)
    <= Component.memoffset x.

(** The parameter slot of a component lies inside an arena of [n] bytes. *)
Definition slot_ok (n : nat) (c : Component.t) : Prop :=
  0 <= Component.memoffset c /\
  Component.memoffset c + ClosurePrimitive.argmem (Component.cprim c) <= Z.of_nat n.

(** The cached argument count of a component is its descriptor's. *)
Definition nargs_ok (c : Component.t) : Prop :=
  Component.nargs c = ClosurePrimitive.nargs (Component.cprim c).

(** The invariant of a buffer: every component has a descriptor with a
    proper layout, the argument count of that descriptor, and a slot
    inside the arena. *)
Definition comp_ok (n : nat) (c : Component.t) : Prop :=
  ClosurePrimitive.layout_ok (Component.cprim c) /\ nargs_ok c /\ slot_ok n c.

Definition ok (b : t) : Prop :=
  Forall (comp_ok (length (m_mem b))) (m_components b).

(** The buffers a program can build: starting from the constructor, by
    calls of the public member functions and by copying, with
    descriptors that a [ClosurePrimitive] constructor returned. *)
Inductive reachable : t -> Prop :=
| reach_new : reachable new
| reach_clear b : reachable b -> reachable (clear b)
| reach_set b name argtypes category prim params b' :
    reachable b ->
    ClosurePrimitive.new name argtypes category = Some prim ->
    set b prim params = Some b' ->
    reachable b'
| reach_add_component b name argtypes category prim w params b' :
    reachable b ->
    ClosurePrimitive.new name argtypes category = Some prim ->
    add_component b prim w params = Some b' ->
    reachable b'
| reach_add b A : reachable b -> reachable A -> reachable (add b A)
| reach_add2 b x y :
    reachable b -> reachable x -> reachable y -> reachable (add2 b x y)
| reach_mul b f : reachable b -> reachable (mul b f)
| reach_mul_Color3 b w : reachable b -> reachable (mul_Color3 b w)
| reach_set_parameter b c p data b' :
    reachable b -> set_parameter b c p data = Some b' -> reachable b'
| reach_copy b : reachable b -> reachable (copy b).

(** Component [j] of [dst] is component [i] of [src]: the same
    primitive, the same weight, and the same [argmem] packed parameter
    bytes behind its recorded offset. *)
Definition same_component (src : t) (i : Z) (dst : t) (j : Z) : Prop :=
  exists p w bytes,
    prim src i = Some p /\ prim dst j = Some p /\
    weight src i = Some w /\ weight dst j = Some w /\
    params_of src i = Some bytes /\ params_of dst j = Some bytes /\
    length bytes = Z.to_nat (ClosurePrimitive.argmem p).

End ClosureColor.

Arguments t {TD}.

End ClosureColor.

(** ** Buffers as objects

    A store maps the address of each live buffer to its value.  A call of
    a member function reads its reference arguments from the store and
    replaces the value of the object it is called on. *)

Module Store.
Section Store.
Context `{TD : TypeDescOps}.

(** [this->add (A)]. *)
Definition call_add (h : gmap positive ClosureColor.t) (this A : positive)
  : option (gmap positive ClosureColor.t) :=
  x ← h !! this; a ← h !! A;
  Some (<[this := ClosureColor.add x a]> h).

(** [this->add (a, b)]. *)
Definition call_add2 (h : gmap positive ClosureColor.t) (this a b : positive)
  : option (gmap positive ClosureColor.t) :=
  x ← h !! this; va ← h !! a; vb ← h !! b;
  Some (<[this := ClosureColor.add2 x va vb]> h).

End Store.
End Store.

(** ** Sample objects

    Two scattering primitives and an emissive one over the sample types,
    as their constructors build them, and a few buffers. *)

Module Sample.

#[local] Existing Instance sample_typedesc.

Definition diffuse : ClosurePrimitive.t :=
  {| ClosurePrimitive.m_name := "diffuse"%string;
     ClosurePrimitive.m_category := ClosurePrimitive.BSDF;
     ClosurePrimitive.m_nargs := 1;
     ClosurePrimitive.m_argmem := 12;
     ClosurePrimitive.m_argtypes := [TypeVector];
     ClosurePrimitive.m_argoffsets := [0];
     ClosurePrimitive.m_argcodes := "v"%string |}.

Definition phong : ClosurePrimitive.t :=
  {| ClosurePrimitive.m_name := "phong"%string;
     ClosurePrimitive.m_category := ClosurePrimitive.BSDF;
     ClosurePrimitive.m_nargs := 3;
     ClosurePrimitive.m_argmem := 20;
     ClosurePrimitive.m_argtypes := [TypeVector; TypeFloat; TypeFloat];
     ClosurePrimitive.m_argoffsets := [0; 12; 16];
     ClosurePrimitive.m_argcodes := "vff"%string |}.

Definition emission : ClosurePrimitive.t :=
  {| ClosurePrimitive.m_name := "emission"%string;
     ClosurePrimitive.m_category := ClosurePrimitive.Emissive;
     ClosurePrimitive.m_nargs := 2;
     ClosurePrimitive.m_argmem := 8;
     ClosurePrimitive.m_argtypes := [TypeFloat; TypeFloat];
     ClosurePrimitive.m_argoffsets := [0; 4];
     ClosurePrimitive.m_argcodes := "ff"%string |}.

(** The vector (0,0,1) as three little-endian binary32 numbers. *)
Definition normal_z : list byte :=
  [x00; x00; x00; x00;  x00; x00; x00; x00;  x00; x00; x80; x3f].

(** The vector (1,0,0). *)
Definition normal_x : list byte :=
  [x00; x00; x80; x3f;  x00; x00; x00; x00;  x00; x00; x00; x00].

(** The number 0.5. *)
Definition half_bytes : list byte := [x00; x00; x00; x3f].

(** The parameters of [phong]: the normal (0,0,1) and two numbers 1. *)
Definition phong_params : list byte :=
  normal_z ++ [x00; x00; x80; x3f] ++ [x00; x00; x80; x3f].

Definition red : Color3 := mkColor3 float_1 float_0 float_0.
Definition green : Color3 := mkColor3 float_0 float_1 float_0.
Definition white : Color3 := mkColor3 float_1 float_1 float_1.

Definition red_diffuse : ClosureColor.t :=
  {| ClosureColor.m_components :=
       [ {| Component.cprim := diffuse; Component.nargs := 1;
            Component.memoffset := 0; Component.weight := red |} ];
     ClosureColor.m_mem := normal_z |}.

Definition green_diffuse : ClosureColor.t :=
  {| ClosureColor.m_components :=
       [ {| Component.cprim := diffuse; Component.nargs := 1;
            Component.memoffset := 0; Component.weight := green |} ];
     ClosureColor.m_mem := normal_x |}.

Definition white_phong : ClosureColor.t :=
  {| ClosureColor.m_components :=
       [ {| Component.cprim := phong; Component.nargs := 3;
            Component.memoffset := 0; Component.weight := white |} ];
     ClosureColor.m_mem := phong_params |}.

(** [white_phong] with its second parameter set to 0.5. *)
Definition phong_half : ClosureColor.t :=
  {| ClosureColor.m_components := ClosureColor.m_components white_phong;
     ClosureColor.m_mem := normal_z ++ half_bytes ++ [x00; x00; x80; x3f] |}.

(** The sum of [red_diffuse] and [green_diffuse]. *)
Definition red_green : ClosureColor.t :=
  {| ClosureColor.m_components :=
       [ {| Component.cprim := diffuse; Component.nargs := 1;
            Component.memoffset := 0; Component.weight := red |};
         {| Component.cprim := diffuse; Component.nargs := 1;
            Component.memoffset := 12; Component.weight := green |} ];
     ClosureColor.m_mem := normal_z ++ normal_x |}.

(** A store with three buffers. *)
Definition store : gmap positive ClosureColor.t :=
  <[3%positive := green_diffuse]>
    (<[2%positive := red_diffuse]> (<[1%positive := white_phong]> ∅)).

End Sample.

(** * Properties *)

(** ** Integers, vectors and byte memory *)

Lemma index_Some (i : Z) (n : nat) :
  Int.index i = Some n <-> 0 <= i /\ n = Z.to_nat i.
Proof.
  unfold Int.index. destruct (Z.leb_spec 0 i); split.
  - intros [= <-]. auto.
  - intros [_ ->]. reflexivity.
  - discriminate.
  - lia.
Qed.

Lemma index_of_nat (n : nat) : Int.index (Z.of_nat n) = Some n.
Proof. apply index_Some. lia. Qed.

Lemma vector_at_Some {A : Type} (v : list A) (i : Z) (x : A) :
  vector_at v i = Some x <-> 0 <= i /\ v !! Z.to_nat i = Some x.
Proof.
  unfold vector_at. destruct (Int.index i) as [n|] eqn:E; simpl.
  - apply index_Some in E as [Hi ->]. tauto.
  - split; [discriminate|]. intros [Hi _].
    assert (Int.index i = Some (Z.to_nat i)) as E' by (apply index_Some; auto).
    congruence.
Qed.

Lemma vector_at_of_nat {A : Type} (v : list A) (n : nat) :
  vector_at v (Z.of_nat n) = v !! n.
Proof. unfold vector_at. rewrite index_of_nat. reflexivity. Qed.

Lemma vector_at_nil {A : Type} (i : Z) : vector_at (@nil A) i = None.
Proof. unfold vector_at. destruct (Int.index i); reflexivity. Qed.

Lemma wrap_small (z : Z) : Int.INT_MIN <= z <= Int.INT_MAX -> Int.wrap z = z.
Proof.
  unfold Int.wrap, Int.INT_MIN, Int.INT_MAX. intros H.
  rewrite Z.mod_small; lia.
Qed.

Lemma of_size_small (n : nat) :
  Z.of_nat n <= Int.INT_MAX -> Int.of_size n = Z.of_nat n.
Proof.
  intros H. apply wrap_small. unfold Int.INT_MIN. lia.
Qed.

Lemma int_add_small (x y : Z) :
  Int.INT_MIN <= x + y <= Int.INT_MAX -> Int.add x y = Some (x + y).
Proof.
  intros H. unfold Int.add, Int.in_range.
  destruct (Z.leb_spec Int.INT_MIN (x + y)); [|lia].
  destruct (Z.leb_spec (x + y) Int.INT_MAX); [reflexivity|lia].
Qed.

Lemma addr_of_app (m1 m2 : list byte) (off : Z) :
  0 <= off ->
  addr_of (m1 ++ m2) (Z.of_nat (length m1) + off) = addr_of m2 off.
Proof.
  intros Hoff. unfold addr_of.
  assert (Int.index (Z.of_nat (length m1) + off)
          = Some (length m1 + Z.to_nat off)%nat) as ->
    by (apply index_Some; lia).
  assert (Int.index off = Some (Z.to_nat off)) as ->
    by (apply index_Some; lia).
  simpl. rewrite length_app, drop_app_add'; [|reflexivity].
  repeat case_decide; (reflexivity || lia).
Qed.

Lemma addr_of_app_l (m1 m2 : list byte) (off : Z) (d : list byte) :
  addr_of m1 off = Some d -> addr_of (m1 ++ m2) off = Some (d ++ m2).
Proof.
  unfold addr_of. destruct (Int.index off) as [n|]; simpl; [|discriminate].
  case_decide; [|discriminate]. intros [= <-].
  rewrite length_app. case_decide; [|lia].
  rewrite drop_app_le; auto.
Qed.

Lemma memcpy_Some (mem : list byte) (off : Z) (data : list byte) (n : nat) :
  0 <= off -> off + Z.of_nat n <= Z.of_nat (length mem) ->
  (n <= length data)%nat ->
  memcpy mem off data n
  = Some (take (Z.to_nat off) mem ++ take n data
          ++ drop (Z.to_nat off + n) mem).
Proof.
  intros H0 H1 H2. unfold memcpy.
  assert (Int.index off = Some (Z.to_nat off)) as ->
    by (apply index_Some; auto).
  simpl. repeat case_decide; (reflexivity || lia).
Qed.

Lemma memcpy_inv (mem : list byte) (off : Z) (data : list byte) (n : nat)
    (mem' : list byte) :
  memcpy mem off data n = Some mem' ->
  0 <= off /\ (Z.to_nat off + n <= length mem)%nat /\ (n <= length data)%nat /\
  mem' = take (Z.to_nat off) mem ++ take n data ++ drop (Z.to_nat off + n) mem.
Proof.
  unfold memcpy. destruct (Int.index off) as [o|] eqn:E; simpl; [|discriminate].
  apply index_Some in E as [Hoff ->].
  repeat case_decide; try discriminate. intros [= <-]. auto.
Qed.

Lemma memcpy_length (mem : list byte) (off : Z) (data : list byte) (n : nat)
    (mem' : list byte) :
  memcpy mem off data n = Some mem' -> length mem' = length mem.
Proof.
  intros H. apply memcpy_inv in H as (H0 & H1 & H2 & ->).
  rewrite !length_app, !length_take, length_drop. lia.
Qed.

(** The bytes inside the copied range come from [data]. *)
Lemma memcpy_lookup_in (mem : list byte) (off : Z) (data : list byte) (n : nat)
    (mem' : list byte) (j : nat) :
  memcpy mem off data n = Some mem' ->
  (Z.to_nat off <= j < Z.to_nat off + n)%nat ->
  mem' !! j = data !! (j - Z.to_nat off)%nat.
Proof.
  intros H Hj. apply memcpy_inv in H as (H0 & H1 & H2 & ->).
  rewrite lookup_app_r by (rewrite length_take; lia).
  rewrite length_take, Nat.min_l by lia.
  rewrite lookup_app_l by (rewrite length_take; lia).
  apply lookup_take_lt. lia.
Qed.

(** The bytes outside the copied range are those of [mem]. *)
Lemma memcpy_lookup_out (mem : list byte) (off : Z) (data : list byte) (n : nat)
    (mem' : list byte) (j : nat) :
  memcpy mem off data n = Some mem' ->
  (j < Z.to_nat off \/ Z.to_nat off + n <= j)%nat ->
  mem' !! j = mem !! j.
Proof.
  intros H Hj. apply memcpy_inv in H as (H0 & H1 & H2 & ->).
  destruct Hj as [Hj|Hj].
  - rewrite lookup_app_l by (rewrite length_take; lia).
    apply lookup_take_lt. lia.
  - rewrite lookup_app_r by (rewrite length_take; lia).
    rewrite length_take, Nat.min_l by lia.
    rewrite lookup_app_r by (rewrite length_take; lia).
    rewrite length_take, Nat.min_l by lia.
    rewrite lookup_drop. f_equal. lia.
Qed.

(** ** The descriptor's layout *)

Section DescriptorProofs.
Context `{TD : TypeDescOps}.

Import ClosurePrimitive.

Lemma sum_list_app (l1 l2 : list Z) :
  sum_list (l1 ++ l2) = sum_list l1 + sum_list l2.
Proof. induction l1 as [|x l1 IH]; simpl; lia. Qed.

Lemma prefix_sums_length (s : Z) (l : list Z) :
  length (prefix_sums s l) = length l.
Proof. revert s. induction l as [|x l IH]; intros s; simpl; auto. Qed.

Lemma prefix_sums_snoc (s : Z) (l : list Z) (x : Z) :
  prefix_sums s (l ++ [x]) = prefix_sums s l ++ [s + sum_list l].
Proof.
  revert s. induction l as [|y l IH]; intros s; simpl.
  - f_equal. lia.
  - rewrite IH, Z.add_assoc. reflexivity.
Qed.

(** The [i]-th prefix sum is the start plus the sizes before [i]. *)
Lemma prefix_sums_lookup (s : Z) (l : list Z) (i : nat) (x : Z) :
  l !! i = Some x ->
  prefix_sums s l !! i = Some (s + sum_list (take i l)).
Proof.
  revert s i. induction l as [|y l IH]; intros s i Hi; [discriminate|].
  destruct i as [|i]; simpl in *.
  - f_equal. lia.
  - rewrite (IH _ _ Hi). f_equal. lia.
Qed.

Lemma sum_list_take_S (l : list Z) (i : nat) (x : Z) :
  l !! i = Some x -> sum_list (take (S i) l) = sum_list (take i l) + x.
Proof.
  intros Hi. rewrite (take_S_r _ _ _ Hi), sum_list_app. simpl. lia.
Qed.

Lemma sum_list_nonneg (l : list Z) : Forall (Z.le 0) l -> 0 <= sum_list l.
Proof. induction 1; simpl; lia. Qed.

Lemma sum_list_take_le (l : list Z) (i : nat) :
  Forall (Z.le 0) l -> sum_list (take i l) <= sum_list l.
Proof.
  intros Hl. rewrite <- (take_drop i l) at 2. rewrite sum_list_app.
  pose proof (sum_list_nonneg (drop i l) (Forall_drop _ _ _ Hl)). lia.
Qed.

Lemma sizes_nonneg (tys : list TypeDesc) : Forall (Z.le 0) (sizes tys).
Proof. unfold sizes. apply Forall_fmap, Forall_true. intros ty. simpl. lia. Qed.

Lemma sizes_lookup (tys : list TypeDesc) (i : nat) (ty : TypeDesc) :
  tys !! i = Some ty -> sizes tys !! i = Some (Z.of_nat (TypeDesc_size ty)).
Proof. intros H. unfold sizes. rewrite list_lookup_fmap, H. reflexivity. Qed.

Lemma push_arg_layout (p : t) (ty : TypeDesc) :
  layout_ok p -> layout_ok (push_arg p ty).
Proof.
  intros (Hn & Ho & Hm). unfold layout_ok, push_arg; simpl.
  unfold sizes in *. rewrite fmap_app, length_app. simpl.
  rewrite prefix_sums_snoc, sum_list_app, <- Ho, <- Hm. simpl.
  repeat split; lia.
Qed.

(** The pass over the code string keeps the layout invariant, keeps the
    name, category and code string, and appends the type of each letter
    in order. *)
Lemma parse_argtypes_spec (codes : list ascii) (p q : t) :
  parse_argtypes codes p = Some q ->
  (layout_ok p -> layout_ok q) /\
  m_name q = m_name p /\ m_category q = m_category p /\
  m_argcodes q = m_argcodes p /\
  exists tys, Forall2 (fun c ty => TypeDesc_of_code c = Some ty) codes tys /\
              m_argtypes q = m_argtypes p ++ tys.
Proof.
  revert p. induction codes as [|c codes IH]; intros p; simpl.
  - intros [= <-]. split; [auto|]. do 3 (split; [reflexivity|]).
    exists nil. split; [constructor|]. symmetry. apply app_nil_r.
  - destruct (TypeDesc_of_code c) as [ty|] eqn:Ec; simpl; [|discriminate].
    intros Hq. destruct (IH _ Hq) as (Hl & Hname & Hcat & Hcodes & tys & Htys & Hq').
    split; [intros Hp; apply Hl, push_arg_layout, Hp|].
    do 3 (split; [assumption|]).
    exists (ty :: tys). split; [constructor; auto|].
    rewrite Hq'. simpl. rewrite <- app_assoc. reflexivity.
Qed.

Lemma new_inv (name argtypes : string) (category : Z) (p : t) :
  new name argtypes category = Some p ->
  layout_ok p /\ m_name p = name /\ m_argcodes p = argtypes /\
  Category_of_int category = Some (m_category p) /\
  Forall2 (fun c ty => TypeDesc_of_code c = Some ty)
          (list_ascii_of_string argtypes) (m_argtypes p).
Proof.
  unfold new. destruct (Category_of_int category) as [cat|]; simpl; [|discriminate].
  intros Hp. apply parse_argtypes_spec in Hp
    as (Hl & Hname & Hcat & Hcodes & tys & Htys & Hq). simpl in *.
  split; [apply Hl; repeat split; reflexivity|].
  do 2 (split; [assumption|]). split; [congruence|].
  rewrite Hq. exact Htys.
Qed.

(** In a descriptor with a proper layout every argument index below
    [nargs] has a type and an offset, and the argument lies inside the
    [argmem] bytes. *)
Lemma layout_arg (p : t) (i : Z) :
  layout_ok p -> 0 <= i < nargs p ->
  exists ty, argtype p i = Some ty /\
    argoffset p i = Some (sum_list (take (Z.to_nat i) (sizes (m_argtypes p)))) /\
    0 <= sum_list (take (Z.to_nat i) (sizes (m_argtypes p))) /\
    sum_list (take (Z.to_nat i) (sizes (m_argtypes p)))
      + Z.of_nat (TypeDesc_size ty) <= argmem p.
Proof.
  intros (Hn & Ho & Hm) Hi. unfold nargs, argtype, argoffset, argmem in *.
  destruct (lookup_lt_is_Some_2 (m_argtypes p) (Z.to_nat i)) as [ty Hty]; [lia|].
  exists ty. pose proof (sizes_lookup _ _ _ Hty) as Hsz.
  split; [apply vector_at_Some; split; [lia | exact Hty]|].
  split.
  { apply vector_at_Some. split; [lia|].
    rewrite Ho, (prefix_sums_lookup _ _ _ _ Hsz). f_equal. }
  split.
  { apply sum_list_nonneg, Forall_take, sizes_nonneg. }
  rewrite Hm, <- (sum_list_take_S _ _ _ Hsz).
  apply sum_list_take_le, sizes_nonneg.
Qed.

Lemma layout_argmem_nonneg (p : t) : layout_ok p -> 0 <= argmem p.
Proof.
  intros (_ & _ & Hm). unfold argmem. rewrite Hm.
  apply sum_list_nonneg, sizes_nonneg.
Qed.

(** C4: a descriptor that the constructor returns has one argument type
    per letter of the code string, in order; its [argmem] is the sum of
    the byte sizes of these types; and its offsets are the exclusive
    prefix sums of the sizes: the list of offsets is [prefix_sums 0], the
    first offset is 0, and each next offset adds the size of the
    argument before it. *)
Theorem new_argmem_argoffsets (name argtypes : string) (category : Z) (p : t) :
  new name argtypes category = Some p ->
  Forall2 (fun c ty => TypeDesc_of_code c = Some ty)
          (list_ascii_of_string argtypes) (m_argtypes p) /\
  nargs p = Z.of_nat (length (m_argtypes p)) /\
  argmem p = sum_list (sizes (m_argtypes p)) /\
  m_argoffsets p = prefix_sums 0 (sizes (m_argtypes p)) /\
  (0 < nargs p -> argoffset p 0 = Some 0) /\
  (forall i, 0 <= i -> i + 1 < nargs p ->
     exists o ty, argoffset p i = Some o /\ argtype p i = Some ty /\
                  argoffset p (i + 1) = Some (o + Z.of_nat (TypeDesc_size ty))).
Proof.
  intros Hp. apply new_inv in Hp as (Hl & _ & _ & _ & Htys).
  pose proof Hl as (Hn & Ho & Hm).
  repeat split; auto.
  - intros Hpos. destruct (layout_arg p 0 Hl) as (ty & _ & Hoff & _); [lia|].
    exact Hoff.
  - intros i Hi Hlt.
    destruct (layout_arg p i Hl) as (ty & Hty & Hoff & _); [lia|].
    destruct (layout_arg p (i + 1) Hl) as (ty' & _ & Hoff' & _); [lia|].
    exists (sum_list (take (Z.to_nat i) (sizes (m_argtypes p)))), ty.
    repeat split; auto.
    rewrite Hoff'. f_equal.
    replace (Z.to_nat (i + 1)) with (S (Z.to_nat i)) by lia.
    apply sum_list_take_S, sizes_lookup.
    apply vector_at_Some in Hty as [_ Hty]. exact Hty.
Qed.

(** C10: a primitive constructed as a [BSDFClosure] reports the category
    [BSDF] and one constructed as an [EmissiveClosure] reports
    [Emissive], and each still does after any sequence of calls of the
    public member functions, which are all [const]. *)
Theorem category_fixed_by_subclass (name argtypes : string) (calls : list Call) :
  (forall p, BSDFClosure name argtypes = Some p ->
     category (foldr after_call p calls) = Category_to_int BSDF) /\
  (forall p, EmissiveClosure name argtypes = Some p ->
     category (foldr after_call p calls) = Category_to_int Emissive).
Proof.
  assert (forall p : t, foldr after_call p calls = p) as Hconst.
  { intros p. induction calls as [|c calls IH]; simpl; auto. }
  split; intros p Hp; rewrite Hconst; unfold category;
    apply new_inv in Hp as (_ & _ & _ & Hcat & _);
    injection Hcat as <-; reflexivity.
Qed.

End DescriptorProofs.

(** ** The closure buffer *)

Section BufferProofs.
Context `{TD : TypeDescOps}.

Import ClosureColor.

Lemma slot_ok_mono (n m : nat) (c : Component.t) :
  (n <= m)%nat -> slot_ok n c -> slot_ok m c.
Proof. unfold slot_ok. intros Hnm [H0 H1]. split; lia. Qed.

Lemma comp_ok_mono (n m : nat) (c : Component.t) :
  (n <= m)%nat -> comp_ok n c -> comp_ok m c.
Proof.
  intros Hnm (Hl & Hn & Hs). split; [exact Hl|]. split; [exact Hn|].
  eapply slot_ok_mono; eauto.
Qed.

Lemma comp_ok_set_weight (n : nat) (c : Component.t) (w : Color3) :
  comp_ok n c -> comp_ok n (Component.set_weight c w).
Proof. intros H. exact H. Qed.

(** Both constructors of [Component] cache the descriptor's argument
    count. *)
Lemma nargs_ok_new (prim : ClosurePrimitive.t) (w : Color3) :
  nargs_ok (Component.new prim w).
Proof. reflexivity. Qed.

Lemma nargs_ok_copy (x : Component.t) : nargs_ok (Component.copy x).
Proof. reflexivity. Qed.

Lemma comp_ok_relocate (base n : nat) (c : Component.t) :
  comp_ok n c -> comp_ok (base + n) (relocate base c).
Proof.
  intros (Hl & _ & H0 & H1). split; [exact Hl|]. split; [apply nargs_ok_copy|].
  unfold slot_ok, relocate in *. simpl. lia.
Qed.

(** What [add_component] returns. *)
Lemma add_component_inv (b : t) (prim : ClosurePrimitive.t) (w : Color3)
    (params : option (list byte)) (b' : t) :
  add_component b prim w params = Some b' ->
  m_components b'
  = m_components b
    ++ [Component.set_memoffset (Component.new prim w)
          (Z.of_nat (length (m_mem b)))] /\
  exists slot,
    m_mem b' = m_mem b ++ slot /\
    length slot = Z.to_nat (ClosurePrimitive.argmem prim) /\
    forall data, params = Some data ->
      slot = take (Z.to_nat (ClosurePrimitive.argmem prim)) data.
Proof.
  unfold add_component.
  set (n := Z.to_nat (ClosurePrimitive.argmem prim)).
  destruct params as [data|]; simpl.
  - destruct (memcpy _ _ _ _) as [mem'|] eqn:E; simpl; [|discriminate].
    intros [= <-]. simpl. split; [reflexivity|].
    apply memcpy_inv in E as (_ & _ & Hd & ->).
    rewrite Nat2Z.id, take_app_length.
    rewrite drop_ge by (rewrite length_app, length_replicate; lia).
    rewrite app_nil_r.
    exists (take n data). split; [reflexivity|]. split.
    + rewrite length_take. lia.
    + intros ? [= <-]. reflexivity.
  - intros [= <-]. simpl. split; [reflexivity|].
    exists (replicate n x00). split; [reflexivity|]. split.
    + apply length_replicate.
    + discriminate.
Qed.

(** [add_component] returns a buffer when [params] is NULL or has
    [argmem] readable bytes. *)
Lemma add_component_Some (b : t) (prim : ClosurePrimitive.t) (w : Color3)
    (params : option (list byte)) :
  (forall data, params = Some data ->
     (Z.to_nat (ClosurePrimitive.argmem prim) <= length data)%nat) ->
  is_Some (add_component b prim w params).
Proof.
  intros Hd. unfold add_component. destruct params as [data|]; simpl.
  - rewrite memcpy_Some; simpl; eauto.
    + lia.
    + rewrite length_app, length_replicate. lia.
  - eauto.
Qed.

Lemma ok_new : ok new.
Proof. constructor. Qed.

Lemma ok_clear (b : t) : ok (clear b).
Proof. constructor. Qed.

Lemma ok_add_component (b : t) (prim : ClosurePrimitive.t) (w : Color3)
    (params : option (list byte)) (b' : t) :
  ClosurePrimitive.layout_ok prim ->
  ok b -> add_component b prim w params = Some b' -> ok b'.
Proof.
  intros Hl Hb Hadd.
  apply add_component_inv in Hadd as (Hc & slot & Hm & Hlen & _).
  pose proof (layout_argmem_nonneg _ Hl) as Hmem.
  unfold ok. rewrite Hc, Hm, length_app. apply Forall_app. split.
  - eapply Forall_impl; [exact Hb|]. intros c. apply comp_ok_mono. lia.
  - constructor; [|constructor].
    split; [exact Hl|]. split; [apply nargs_ok_new|].
    unfold slot_ok. simpl. lia.
Qed.

Lemma ok_add (b A : t) : ok b -> ok A -> ok (add b A).
Proof.
  intros Hb HA. unfold ok, add. simpl. rewrite length_app.
  apply Forall_app. split.
  - eapply Forall_impl; [exact Hb|]. intros c. apply comp_ok_mono. lia.
  - apply Forall_fmap. eapply Forall_impl; [exact HA|].
    intros c. apply comp_ok_relocate.
Qed.

Lemma ok_add2 (b x y : t) : ok x -> ok y -> ok (add2 b x y).
Proof. intros Hx Hy. unfold add2. apply ok_add; [apply ok_add|]; auto using ok_clear. Qed.

Lemma ok_mul (b : t) (f : float) : ok b -> ok (mul b f).
Proof.
  intros Hb. unfold ok, mul. simpl. apply Forall_fmap.
  eapply Forall_impl; [exact Hb|]. intros c Hc. exact Hc.
Qed.

Lemma ok_mul_Color3 (b : t) (w : Color3) : ok b -> ok (mul_Color3 b w).
Proof.
  intros Hb. unfold ok, mul_Color3. simpl. apply Forall_fmap.
  eapply Forall_impl; [exact Hb|]. intros c Hc. exact Hc.
Qed.

Lemma ok_copy (b : t) : ok b -> ok (copy b).
Proof.
  intros Hb. unfold ok, copy. simpl. apply Forall_fmap.
  eapply Forall_impl; [exact Hb|]. intros c (Hl & _ & H0 & H1).
  split; [exact Hl|]. split; [apply nargs_ok_copy|].
  pose proof (layout_argmem_nonneg _ Hl).
  unfold slot_ok in *. simpl. lia.
Qed.

Lemma set_parameter_inv (b : t) (c p : Z) (data : list byte) (b' : t) :
  set_parameter b c p data = Some b' ->
  m_components b' = m_components b /\ length (m_mem b') = length (m_mem b).
Proof.
  unfold set_parameter. intros H.
  destruct (vector_at (m_components b) c) as [comp|]; simpl in H; [|discriminate].
  destruct (ClosurePrimitive.argoffset _ p) as [off|]; simpl in H; [|discriminate].
  destruct (ClosurePrimitive.argtype _ p) as [ty|]; simpl in H; [|discriminate].
  destruct (Int.add _ off) as [dst|]; simpl in H; [|discriminate].
  destruct (memcpy _ dst _ _) as [mem|] eqn:E; simpl in H; [|discriminate].
  injection H as <-. simpl. split; [reflexivity|].
  eapply memcpy_length; eauto.
Qed.

Lemma ok_set_parameter (b : t) (c p : Z) (data : list byte) (b' : t) :
  ok b -> set_parameter b c p data = Some b' -> ok b'.
Proof.
  intros Hb H. apply set_parameter_inv in H as [Hc Hm].
  unfold ok. rewrite Hc, Hm. exact Hb.
Qed.

(** Every buffer a program can build satisfies the invariant. *)
Lemma reachable_ok (b : t) : reachable b -> ok b.
Proof.
  induction 1 as [ | b _ _
                   | b name argtypes category prim params b' _ IH Hnew Hset
                   | b name argtypes category prim w params b' _ IH Hnew Hadd
                   | b A _ IHb _ IHA
                   | b x y _ _ _ IHx _ IHy
                   | b f _ IH
                   | b w _ IH
                   | b c p data b' _ IH Hset
                   | b _ IH ].
  - apply ok_new.
  - apply ok_clear.
  - apply new_inv in Hnew as [Hl _].
    eapply ok_add_component; [exact Hl | apply (ok_clear b) | exact Hset].
  - apply new_inv in Hnew as [Hl _].
    eapply ok_add_component; eauto.
  - apply ok_add; auto.
  - apply ok_add2; auto.
  - apply ok_mul; auto.
  - apply ok_mul_Color3; auto.
  - eapply ok_set_parameter; eauto.
  - apply ok_copy; auto.
Qed.

Lemma vector_at_lookup {A : Type} (v : list A) (i : Z) :
  0 <= i -> vector_at v i = v !! Z.to_nat i.
Proof.
  intros Hi. unfold vector_at.
  assert (Int.index i = Some (Z.to_nat i)) as -> by (apply index_Some; auto).
  reflexivity.
Qed.

Lemma vector_at_is_Some {A : Type} (v : list A) (i : Z) :
  0 <= i < Z.of_nat (length v) -> is_Some (vector_at v i).
Proof.
  intros Hi. rewrite vector_at_lookup by lia. apply lookup_lt_is_Some_2. lia.
Qed.

Lemma vector_at_fmap {A B : Type} (f : A -> B) (v : list A) (i : Z) :
  vector_at (f <$> v) i = f <$> vector_at v i.
Proof.
  unfold vector_at. destruct (Int.index i) as [n|]; simpl; [|reflexivity].
  apply list_lookup_fmap.
Qed.

Lemma vector_at_app_l {A : Type} (v1 v2 : list A) (i : Z) (x : A) :
  vector_at v1 i = Some x -> vector_at (v1 ++ v2) i = Some x.
Proof.
  rewrite !vector_at_Some. intros [Hi Hx]. split; [exact Hi|].
  apply lookup_app_l_Some, Hx.
Qed.

Lemma vector_at_app_r {A : Type} (v1 v2 : list A) (i : Z) :
  0 <= i -> vector_at (v1 ++ v2) (Z.of_nat (length v1) + i) = vector_at v2 i.
Proof.
  intros Hi. rewrite !vector_at_lookup by lia.
  rewrite lookup_app_r by lia. f_equal. lia.
Qed.

Lemma component_ok (b : t) (i : Z) (c : Component.t) :
  ok b -> component b i = Some c -> comp_ok (length (m_mem b)) c.
Proof.
  intros Hb Hc. apply vector_at_Some in Hc as [_ Hc].
  unfold ok in Hb. rewrite Forall_lookup in Hb. eapply Hb, Hc.
Qed.

(** The packed parameter bytes of a component whose slot lies inside the
    arena. *)
Lemma params_of_slot (b : t) (i : Z) (c : Component.t) :
  component b i = Some c -> slot_ok (length (m_mem b)) c ->
  0 <= ClosurePrimitive.argmem (Component.cprim c) ->
  exists bytes,
    params_of b i = Some bytes /\
    bytes = take (Z.to_nat (ClosurePrimitive.argmem (Component.cprim c)))
                 (drop (Z.to_nat (Component.memoffset c)) (m_mem b)) /\
    length bytes = Z.to_nat (ClosurePrimitive.argmem (Component.cprim c)).
Proof.
  intros Hc [H0 H1] Hmem. unfold params_of, addr_of. rewrite Hc. simpl.
  assert (Int.index (Component.memoffset c)
          = Some (Z.to_nat (Component.memoffset c))) as ->
    by (apply index_Some; auto).
  simpl. case_decide.
  - simpl. eexists. split; [reflexivity|]. split; [reflexivity|].
    rewrite length_take, length_drop. lia.
  - lia.
Qed.

Lemma same_component_trans (x y z : t) (i j k : Z) :
  same_component x i y j -> same_component y j z k -> same_component x i z k.
Proof.
  intros (p & w & bytes & Hp1 & Hp2 & Hw1 & Hw2 & Hb1 & Hb2 & Hlen)
         (p' & w' & bytes' & Hp1' & Hp2' & Hw1' & Hw2' & Hb1' & Hb2' & Hlen').
  assert (p' = p) as -> by congruence.
  assert (w' = w) as -> by congruence.
  assert (bytes' = bytes) as -> by congruence.
  exists p, w, bytes. repeat split; assumption.
Qed.

(** In-place addition keeps the components of the buffer it is applied
    to. *)
Lemma same_component_add_l (x A : t) (i : Z) :
  ok x -> 0 <= i < Z.of_nat (length (m_components x)) ->
  same_component x i (add x A) i.
Proof.
  intros Hx Hi.
  destruct (vector_at_is_Some (m_components x) i Hi) as [c Hc].
  change (component x i = Some c) in Hc.
  pose proof (component_ok x i c Hx Hc) as (Hl & _ & Hs).
  pose proof (layout_argmem_nonneg _ Hl) as Hmem.
  destruct (params_of_slot x i c Hc Hs Hmem) as (bytes & Hb & Hbytes & Hlen).
  assert (component (add x A) i = Some c) as Hc'
    by (apply vector_at_app_l; exact Hc).
  exists (Component.cprim c), (Component.weight c), bytes.
  unfold prim, weight. rewrite Hc, Hc'. simpl.
  do 5 (split; [reflexivity || assumption|]). split; [|auto].
  unfold params_of. rewrite Hc'. simpl.
  destruct Hs as [H0 H1].
  assert (addr_of (m_mem x) (Component.memoffset c)
          = Some (drop (Z.to_nat (Component.memoffset c)) (m_mem x))) as Ha.
  { unfold addr_of.
    assert (Int.index (Component.memoffset c)
            = Some (Z.to_nat (Component.memoffset c))) as ->
      by (apply index_Some; auto).
    simpl. case_decide; [reflexivity|lia]. }
  rewrite (addr_of_app_l _ (m_mem A) _ _ Ha). simpl.
  rewrite take_app_le by (rewrite length_drop; lia).
  rewrite Hbytes. reflexivity.
Qed.

(** Addition copies the components of its argument behind those already
    there. *)
Lemma same_component_add_r (x A : t) (i : Z) :
  ok A -> 0 <= i < Z.of_nat (length (m_components A)) ->
  same_component A i (add x A) (Z.of_nat (length (m_components x)) + i).
Proof.
  intros HA Hi.
  destruct (vector_at_is_Some (m_components A) i Hi) as [c Hc].
  change (component A i = Some c) in Hc.
  pose proof (component_ok A i c HA Hc) as (Hl & _ & Hs).
  pose proof (layout_argmem_nonneg _ Hl) as Hmem.
  destruct (params_of_slot A i c Hc Hs Hmem) as (bytes & Hb & Hbytes & Hlen).
  assert (component (add x A) (Z.of_nat (length (m_components x)) + i)
          = Some (relocate (length (m_mem x)) c)) as Hc'.
  { unfold component, add. simpl. rewrite vector_at_app_r by lia.
    rewrite vector_at_fmap. unfold component in Hc. rewrite Hc. reflexivity. }
  exists (Component.cprim c), (Component.weight c), bytes.
  unfold prim, weight. rewrite Hc, Hc'. simpl.
  do 5 (split; [reflexivity || assumption|]). split; [|auto].
  unfold params_of. rewrite Hc'. simpl.
  destruct Hs as [H0 H1]. rewrite addr_of_app by exact H0.
  unfold params_of in Hb. rewrite Hc in Hb. exact Hb.
Qed.

(** C8: after [clear ()] the buffer is empty for every introspection:
    [ncomponents ()] is 0, the arena has length 0, and no index has a
    component, a weight, a primitive or parameter data. *)
Theorem clear_reports_empty (this : t) :
  ncomponents (clear this) = 0 /\
  length (m_mem (clear this)) = 0%nat /\
  forall i, component (clear this) i = None /\
            weight (clear this) i = None /\
            prim (clear this) i = None /\
            compdata (clear this) i = None /\
            params_of (clear this) i = None.
Proof.
  split; [reflexivity|]. split; [reflexivity|]. intros i.
  assert (component (clear this) i = None) as Hc by apply vector_at_nil.
  unfold weight, prim, compdata, params_of. rewrite Hc. auto.
Qed.

(** C3: [set (prim, params)] is [clear ()] followed by one
    [add_component] with the weight (1,1,1).  When [params] has the
    [argmem] bytes it is read for (or is NULL), the call returns a
    buffer with exactly one component, whose weight is (1,1,1) and whose
    primitive is [prim]; the arena is that component's slot, and with
    [params] supplied its bytes are the [argmem] bytes supplied. *)
Theorem set_is_clear_then_add_component (this : t) (p : ClosurePrimitive.t)
    (params : option (list byte)) :
  set this p params
  = add_component (clear this) p (mkColor3 float_1 float_1 float_1) params /\
  ((forall data, params = Some data ->
      (Z.to_nat (ClosurePrimitive.argmem p) <= length data)%nat) ->
   exists r, set this p params = Some r /\
     ncomponents r = 1 /\
     length (m_components r) = 1%nat /\
     weight r 0 = Some (mkColor3 float_1 float_1 float_1) /\
     prim r 0 = Some p /\
     (forall i, i <> 0 -> component r i = None) /\
     length (m_mem r) = Z.to_nat (ClosurePrimitive.argmem p) /\
     forall data, params = Some data ->
       m_mem r = take (Z.to_nat (ClosurePrimitive.argmem p)) data /\
       params_of r 0 = Some (take (Z.to_nat (ClosurePrimitive.argmem p)) data)).
Proof.
  split; [reflexivity|]. intros Hd.
  destruct (add_component_Some (clear this) p
              (mkColor3 float_1 float_1 float_1) params Hd) as [r Hr].
  exists r. split; [exact Hr|].
  apply add_component_inv in Hr as (Hc & slot & Hm & Hlen & Hslot).
  simpl in Hc, Hm.
  unfold ncomponents, weight, prim, component, params_of, component.
  rewrite Hc, Hm. simpl.
  do 4 (split; [reflexivity|]).
  split.
  { intros i Hi. unfold vector_at.
    destruct (Int.index i) as [n|] eqn:E; simpl; [|reflexivity].
    apply index_Some in E as [Hi0 ->].
    destruct (Z.to_nat i) as [|n] eqn:En; [lia|reflexivity]. }
  split; [exact Hlen|].
  intros data Hdata. rewrite (Hslot data Hdata). split; [reflexivity|].
  unfold vector_at, addr_of. simpl. rewrite drop_0.
  rewrite take_take, Nat.min_id. reflexivity.
Qed.

(** C5: [add (a, b)] has as many components as [a] and [b] together, and
    so has the in-place [add]; [ncomponents ()] reports the sum whenever
    it fits an [int].  Adding two one-component buffers on the same
    primitive, with weights (1,0,0) and (0,1,0), gives two components
    with these two weights: they are not merged. *)
Theorem add_component_count (this a b : t) :
  length (m_components (add2 this a b))
  = (length (m_components a) + length (m_components b))%nat /\
  length (m_components (add a b))
  = (length (m_components a) + length (m_components b))%nat /\
  (Z.of_nat (length (m_components a) + length (m_components b)) <= Int.INT_MAX ->
   ncomponents (add2 this a b) = ncomponents a + ncomponents b /\
   ncomponents (add a b) = ncomponents a + ncomponents b) /\
  (forall p pa pb,
     add_component new p (mkColor3 float_1 float_0 float_0) pa = Some a ->
     add_component new p (mkColor3 float_0 float_1 float_0) pb = Some b ->
     ncomponents (add2 this a b) = 2 /\
     weight (add2 this a b) 0 = Some (mkColor3 float_1 float_0 float_0) /\
     weight (add2 this a b) 1 = Some (mkColor3 float_0 float_1 float_0) /\
     prim (add2 this a b) 0 = Some p /\
     prim (add2 this a b) 1 = Some p).
Proof.
  assert (length (m_components (add2 this a b))
          = (length (m_components a) + length (m_components b))%nat) as H2.
  { unfold add2, add. simpl. rewrite length_app, !length_fmap. reflexivity. }
  assert (length (m_components (add a b))
          = (length (m_components a) + length (m_components b))%nat) as H1.
  { unfold add. simpl. rewrite length_app, length_fmap. reflexivity. }
  split; [exact H2|]. split; [exact H1|]. split.
  - intros Hfit. unfold ncomponents. rewrite H1, H2.
    rewrite !of_size_small by lia. lia.
  - intros p pa pb Ha Hb.
    apply add_component_inv in Ha as (Ha & _).
    apply add_component_inv in Hb as (Hb & _).
    simpl in Ha, Hb.
    unfold ncomponents, weight, prim, component, add2, add. simpl.
    rewrite Ha, Hb. simpl. repeat split; reflexivity.
Qed.

(** C6: [mul (f)] and [mul (w)] leave the arena, the number of
    components, and each component's primitive, cached argument count
    and offset as they were, and replace each weight by its channel-wise
    binary32 product with the factor.  Nothing is clamped: a weight of 1
    times -2 is -2, and times 3 is 3. *)
Theorem mul_scales_weights_only (this : t) (f : float) (w : Color3) :
  (m_mem (mul this f) = m_mem this /\
   ncomponents (mul this f) = ncomponents this /\
   forall i,
     prim (mul this f) i = prim this i /\
     (Component.memoffset <$> component (mul this f) i)
       = (Component.memoffset <$> component this i) /\
     (Component.nargs <$> component (mul this f) i)
       = (Component.nargs <$> component this i) /\
     weight (mul this f) i
       = ((fun v => mkColor3 (float_mul (c_x v) f) (float_mul (c_y v) f)
                             (float_mul (c_z v) f)) <$> weight this i)) /\
  (m_mem (mul_Color3 this w) = m_mem this /\
   ncomponents (mul_Color3 this w) = ncomponents this /\
   forall i,
     prim (mul_Color3 this w) i = prim this i /\
     (Component.memoffset <$> component (mul_Color3 this w) i)
       = (Component.memoffset <$> component this i) /\
     (Component.nargs <$> component (mul_Color3 this w) i)
       = (Component.nargs <$> component this i) /\
     weight (mul_Color3 this w) i
       = ((fun v => mkColor3 (float_mul (c_x v) (c_x w))
                             (float_mul (c_y v) (c_y w))
                             (float_mul (c_z v) (c_z w))) <$> weight this i)) /\
  float_mul float_1 float_neg2 = float_neg2 /\
  float_mul float_1 float_3 = float_3.
Proof.
  split; [|split; [|split; reflexivity]].
  - split; [reflexivity|]. split.
    + unfold ncomponents, mul. simpl. rewrite length_fmap. reflexivity.
    + intros i. unfold prim, weight, component, mul. simpl.
      rewrite vector_at_fmap.
      destruct (vector_at (m_components this) i) as [c|]; simpl; auto.
  - split; [reflexivity|]. split.
    + unfold ncomponents, mul_Color3. simpl. rewrite length_fmap. reflexivity.
    + intros i. unfold prim, weight, component, mul_Color3. simpl.
      rewrite vector_at_fmap.
      destruct (vector_at (m_components this) i) as [c|]; simpl; auto.
Qed.

(** C7: in a buffer that satisfies the invariant, with an arena of less
    than 2^31 bytes, for a valid component index [c] and a valid
    parameter index [p] of that component's descriptor,
    [set_parameter (c, p, data)] returns a buffer; the bytes of the arena
    from [memoffset + argoffset (p)], [argtype (p).size ()] many, are the
    first bytes of [data]; every other byte of the arena, the arena's
    length, the component list and all weights are as before. *)
Theorem set_parameter_overwrites_one_argument (this : t) (c p : Z)
    (data : list byte) (comp : Component.t) :
  ok this ->
  Z.of_nat (length (m_mem this)) <= Int.INT_MAX ->
  component this c = Some comp ->
  0 <= p < ClosurePrimitive.nargs (Component.cprim comp) ->
  (forall ty, ClosurePrimitive.argtype (Component.cprim comp) p = Some ty ->
     (TypeDesc_size ty <= length data)%nat) ->
  exists ty off r,
    ClosurePrimitive.argtype (Component.cprim comp) p = Some ty /\
    ClosurePrimitive.argoffset (Component.cprim comp) p = Some off /\
    set_parameter this c p data = Some r /\
    m_components r = m_components this /\
    (forall i, weight r i = weight this i) /\
    length (m_mem r) = length (m_mem this) /\
    0 <= Component.memoffset comp + off /\
    (Z.to_nat (Component.memoffset comp + off) + TypeDesc_size ty
       <= length (m_mem this))%nat /\
    forall j : nat,
      ((Z.to_nat (Component.memoffset comp + off) <= j
        < Z.to_nat (Component.memoffset comp + off) + TypeDesc_size ty)%nat ->
       m_mem r !! j = data !! (j - Z.to_nat (Component.memoffset comp + off))%nat) /\
      ((j < Z.to_nat (Component.memoffset comp + off) \/
        Z.to_nat (Component.memoffset comp + off) + TypeDesc_size ty <= j)%nat ->
       m_mem r !! j = m_mem this !! j).
Proof.
  intros Hok Hfit Hc Hp Hdata.
  pose proof (component_ok this c comp Hok Hc) as (Hl & _ & Hs0 & Hs1).
  destruct (layout_arg _ p Hl Hp) as (ty & Hty & Hoff & Hoff0 & Hoff1).
  set (off := ClosurePrimitive.sum_list _) in *.
  specialize (Hdata ty Hty).
  assert (Int.add (Component.memoffset comp) off
          = Some (Component.memoffset comp + off)) as Hadd.
  { apply int_add_small. unfold Int.INT_MIN. lia. }
  destruct (memcpy (m_mem this) (Component.memoffset comp + off) data
              (TypeDesc_size ty)) as [mem|] eqn:Hcpy.
  2: { rewrite memcpy_Some in Hcpy by lia. discriminate. }
  exists ty, off, {| m_components := m_components this; m_mem := mem |}.
  split; [exact Hty|]. split; [exact Hoff|]. split.
  { unfold set_parameter. unfold component in Hc. rewrite Hc. simpl.
    rewrite Hoff. simpl. rewrite Hty. simpl. rewrite Hadd. simpl.
    rewrite Hcpy. reflexivity. }
  simpl. split; [reflexivity|]. split; [reflexivity|].
  split; [eapply memcpy_length; eauto|].
  split; [lia|]. split; [lia|].
  intros j. split; intros Hj.
  - eapply memcpy_lookup_in; eauto.
  - eapply memcpy_lookup_out; eauto.
Qed.

(** C9: both constructors of [Component] set the cached argument count
    to the descriptor's, and in every buffer a program can build each
    component's [nargs] is [cprim->nargs ()]. *)
Theorem component_nargs_is_descriptor_nargs (b : t) :
  reachable b ->
  (forall p w, Component.nargs (Component.new p w) = ClosurePrimitive.nargs p) /\
  (forall x, Component.nargs (Component.copy x)
             = ClosurePrimitive.nargs (Component.cprim (Component.copy x))) /\
  (forall i c, component b i = Some c ->
     Component.nargs c = ClosurePrimitive.nargs (Component.cprim c)).
Proof.
  intros Hb. split; [intros p w; apply nargs_ok_new|].
  split; [intros x; apply nargs_ok_copy|].
  intros i c Hc.
  destruct (component_ok b i c (reachable_ok b Hb) Hc) as (_ & Hn & _).
  exact Hn.
Qed.

(** While [m_components] has room for the components added, so that no
    stored component is moved: for buffers that satisfy the invariant,
    [add (A)] keeps every component of the buffer it is called on and
    appends a copy of every component of [A]; [add (a, b)] holds a copy
    of every component of [a] followed by a copy of every component of
    [b].  Each of these has the primitive, the weight and, behind its
    recorded [memoffset], the packed parameter bytes of the component it
    comes from.  The call changes only the object it is called on: every
    other buffer of the store, the sources among them, is as before. *)
Theorem add_preserves_source_layout (h : gmap positive t)
    (this a b : positive) (x va vb : t) :
  h !! this = Some x -> h !! a = Some va -> h !! b = Some vb ->
  ok x -> ok va -> ok vb ->
  (exists h' r,
     Store.call_add h this a = Some h' /\ h' !! this = Some r /\ ok r /\
     (forall i, 0 <= i < Z.of_nat (length (m_components x)) ->
        same_component x i r i) /\
     (forall i, 0 <= i < Z.of_nat (length (m_components va)) ->
        same_component va i r (Z.of_nat (length (m_components x)) + i)) /\
     (forall l, l <> this -> h' !! l = h !! l)) /\
  (exists h' r,
     Store.call_add2 h this a b = Some h' /\ h' !! this = Some r /\ ok r /\
     (forall i, 0 <= i < Z.of_nat (length (m_components va)) ->
        same_component va i r i) /\
     (forall i, 0 <= i < Z.of_nat (length (m_components vb)) ->
        same_component vb i r (Z.of_nat (length (m_components va)) + i)) /\
     (forall l, l <> this -> h' !! l = h !! l)).
Proof.
  intros Hthis Ha Hb Hx Hva Hvb. split.
  - exists (<[this := add x va]> h), (add x va).
    split; [unfold Store.call_add; rewrite Hthis, Ha; reflexivity|].
    split; [apply lookup_insert_eq|].
    split; [apply ok_add; assumption|].
    split; [intros i Hi; apply same_component_add_l; assumption|].
    split; [intros i Hi; apply same_component_add_r; assumption|].
    intros l Hl. apply lookup_insert_ne. congruence.
  - set (s := add (clear x) va).
    assert (ok s) as Hs by (apply ok_add; [apply ok_clear | assumption]).
    assert (length (m_components s) = length (m_components va)) as Hlen
      by (unfold s, add; simpl; apply length_fmap).
    assert (forall i, 0 <= i < Z.of_nat (length (m_components va)) ->
              same_component va i s i) as Hcopy.
    { intros i Hi.
      pose proof (same_component_add_r (clear x) va i Hva Hi) as H.
      simpl in H. replace (0 + i) with i in H by lia. exact H. }
    exists (<[this := add2 x va vb]> h), (add2 x va vb).
    split; [unfold Store.call_add2; rewrite Hthis, Ha, Hb; reflexivity|].
    split; [apply lookup_insert_eq|].
    split; [apply ok_add2; assumption|].
    split; [|split].
    + intros i Hi. eapply same_component_trans; [apply Hcopy, Hi|].
      apply (same_component_add_l s vb i Hs). rewrite Hlen. exact Hi.
    + intros i Hi. rewrite <- Hlen.
      apply (same_component_add_r s vb i Hvb Hi).
    + intros l Hl. apply lookup_insert_ne. congruence.
Qed.

(** Whenever [set_parameter] returns, the component list and the length
    of the arena are as before, so every introspection of the components
    gives what it gave, and the invariant is kept. *)
Theorem set_parameter_keeps_components (b : t) (c p : Z) (data : list byte)
    (r : t) :
  set_parameter b c p data = Some r ->
  ncomponents r = ncomponents b /\
  length (m_mem r) = length (m_mem b) /\
  (forall i, component r i = component b i /\
             weight r i = weight b i /\ prim r i = prim b i) /\
  (ok b -> ok r).
Proof.
  intros H. pose proof (set_parameter_inv b c p data r H) as [Hc Hm].
  unfold ncomponents, weight, prim, component. rewrite Hc.
  split; [reflexivity|]. split; [exact Hm|]. split; [auto|].
  intros Hb. unfold ok. rewrite Hc, Hm. exact Hb.
Qed.






End BufferProofs.

(** ** Reading and writing parameters *)

Section ParameterProofs.
Context `{TD : TypeDescOps}.

Import ClosureColor.

Lemma addr_of_Some (mem : list byte) (off : Z) :
  0 <= off <= Z.of_nat (length mem) ->
  addr_of mem off = Some (drop (Z.to_nat off) mem).
Proof.
  intros H. unfold addr_of.
  assert (Int.index off = Some (Z.to_nat off)) as -> by (apply index_Some; lia).
  simpl. case_decide; [reflexivity|lia].
Qed.

Lemma addr_of_inv (mem : list byte) (off : Z) (d : list byte) :
  addr_of mem off = Some d ->
  0 <= off <= Z.of_nat (length mem) /\ d = drop (Z.to_nat off) mem.
Proof.
  unfold addr_of. destruct (Int.index off) as [n|] eqn:E; simpl; [|discriminate].
  apply index_Some in E as [H0 ->]. case_decide; [|discriminate].
  intros [= <-]. split; [lia|reflexivity].
Qed.

(** Whether an address lies in an arena depends on the arena's length
    only. *)
Lemma addr_of_is_Some_length (m1 m2 : list byte) (off : Z) :
  length m1 = length m2 -> is_Some (addr_of m1 off) -> is_Some (addr_of m2 off).
Proof.
  intros Hlen [d Hd]. apply addr_of_inv in Hd as [H _].
  rewrite addr_of_Some by lia. eauto.
Qed.

Lemma read_bytes_Some (mem : list byte) (off : Z) (n : nat) :
  0 <= off -> off + Z.of_nat n <= Z.of_nat (length mem) ->
  read_bytes mem off n = Some (take n (drop (Z.to_nat off) mem)).
Proof.
  intros H0 H1. unfold read_bytes. rewrite addr_of_Some by lia. simpl.
  rewrite length_drop. case_decide; [reflexivity|lia].
Qed.

Lemma read_bytes_inv (mem : list byte) (off : Z) (n : nat) (bs : list byte) :
  read_bytes mem off n = Some bs ->
  0 <= off /\ off + Z.of_nat n <= Z.of_nat (length mem) /\
  bs = take n (drop (Z.to_nat off) mem).
Proof.
  unfold read_bytes. destruct (addr_of mem off) as [d|] eqn:E; simpl; [|discriminate].
  apply addr_of_inv in E as [H ->]. rewrite length_drop.
  case_decide; [|discriminate]. intros [= <-]. repeat split; lia.
Qed.

(** A read through an address inside [mem] is a read of [mem]. *)
Lemma read_bytes_addr_of (mem : list byte) (base off : Z) (n : nat)
    (d : list byte) :
  addr_of mem base = Some d -> 0 <= off ->
  read_bytes d off n = read_bytes mem (base + off) n.
Proof.
  intros Hd Hoff. apply addr_of_inv in Hd as [Hb ->].
  unfold read_bytes, addr_of.
  assert (Int.index off = Some (Z.to_nat off)) as -> by (apply index_Some; lia).
  assert (Int.index (base + off) = Some (Z.to_nat base + Z.to_nat off)%nat) as ->
    by (apply index_Some; lia).
  simpl. rewrite length_drop, drop_drop.
  repeat case_decide; simpl; try lia; try reflexivity.
  all: rewrite !length_drop; repeat case_decide; (reflexivity || lia).
Qed.

(** Every byte of the result of [memcpy]. *)
Lemma memcpy_lookup (mem : list byte) (off : Z) (data : list byte) (n : nat)
    (mem' : list byte) (j : nat) :
  memcpy mem off data n = Some mem' ->
  mem' !! j
  = if decide (Z.to_nat off <= j < Z.to_nat off + n)%nat
    then data !! (j - Z.to_nat off)%nat else mem !! j.
Proof.
  intros H. case_decide.
  - eapply memcpy_lookup_in; eauto.
  - eapply memcpy_lookup_out; eauto. lia.
Qed.

(** Reading back what [memcpy] wrote. *)
Lemma read_bytes_memcpy_same (mem : list byte) (off : Z) (data : list byte)
    (n : nat) (mem' : list byte) :
  memcpy mem off data n = Some mem' -> read_bytes mem' off n = Some (take n data).
Proof.
  intros H. pose proof (memcpy_length _ _ _ _ _ H) as Hlen.
  apply memcpy_inv in H as (H0 & H1 & H2 & ->).
  rewrite read_bytes_Some by lia. f_equal.
  rewrite drop_app_length' by (rewrite length_take; lia).
  rewrite take_app_length' by (rewrite length_take; lia). reflexivity.
Qed.

(** A read that does not meet the range [memcpy] wrote gives what it gave
    before. *)
Lemma read_bytes_memcpy_disjoint (mem : list byte) (off : Z) (data : list byte)
    (n : nat) (mem' : list byte) (s : Z) (k : nat) :
  memcpy mem off data n = Some mem' ->
  s + Z.of_nat k <= off \/ off + Z.of_nat n <= s ->
  read_bytes mem' s k = read_bytes mem s k.
Proof.
  intros H Hdis. pose proof (memcpy_length _ _ _ _ _ H) as Hlen.
  pose proof (memcpy_inv _ _ _ _ _ H) as (H0 & H1 & H2 & _).
  destruct (decide (0 <= s /\ s + Z.of_nat k <= Z.of_nat (length mem))) as [Hs|Hs].
  - rewrite !read_bytes_Some by lia. f_equal.
    apply list_eq. intros j.
    destruct (decide (j < k)%nat) as [Hj|Hj].
    + rewrite !lookup_take_lt, !lookup_drop by exact Hj.
      rewrite (memcpy_lookup _ _ _ _ _ _ H). case_decide; [lia|reflexivity].
    + rewrite !lookup_take_ge by lia. reflexivity.
  - destruct (read_bytes mem' s k) as [bs|] eqn:E1.
    { apply read_bytes_inv in E1 as (? & ? & _). lia. }
    destruct (read_bytes mem s k) as [bs|] eqn:E2; [|reflexivity].
    apply read_bytes_inv in E2 as (? & ? & _). lia.
Qed.

(** The last of two copies to the same place is the one that counts. *)
Lemma memcpy_memcpy_same (mem : list byte) (off : Z) (d1 d2 : list byte)
    (n : nat) (mem1 : list byte) :
  memcpy mem off d1 n = Some mem1 -> memcpy mem1 off d2 n = memcpy mem off d2 n.
Proof.
  intros H. pose proof (memcpy_length _ _ _ _ _ H) as Hlen.
  apply memcpy_inv in H as (H0 & H1 & H2 & ->).
  unfold memcpy.
  assert (Int.index off = Some (Z.to_nat off)) as -> by (apply index_Some; lia).
  simpl. rewrite Hlen. repeat case_decide; try reflexivity. f_equal.
  rewrite take_app_length' by (rewrite length_take; lia). f_equal. f_equal.
  rewrite app_assoc.
  rewrite drop_app_length' by (rewrite length_app, !length_take; lia).
  reflexivity.
Qed.

(** Two copies to ranges that do not meet can be made in either order. *)
Lemma memcpy_commute (mem : list byte) (a b : Z) (d1 d2 : list byte)
    (n1 n2 : nat) (m1 m2 : list byte) :
  memcpy mem a d1 n1 = Some m1 -> memcpy mem b d2 n2 = Some m2 ->
  a + Z.of_nat n1 <= b \/ b + Z.of_nat n2 <= a ->
  exists m, memcpy m1 b d2 n2 = Some m /\ memcpy m2 a d1 n1 = Some m.
Proof.
  intros Ha Hb Hdis.
  pose proof (memcpy_length _ _ _ _ _ Ha) as Hl1.
  pose proof (memcpy_length _ _ _ _ _ Hb) as Hl2.
  pose proof (memcpy_inv _ _ _ _ _ Ha) as (Ha0 & Ha1 & Ha2 & _).
  pose proof (memcpy_inv _ _ _ _ _ Hb) as (Hb0 & Hb1 & Hb2 & _).
  destruct (memcpy m1 b d2 n2) as [m12|] eqn:E12.
  2: { rewrite memcpy_Some in E12 by lia. discriminate. }
  destruct (memcpy m2 a d1 n1) as [m21|] eqn:E21.
  2: { rewrite memcpy_Some in E21 by lia. discriminate. }
  exists m12. split; [reflexivity|]. f_equal. apply list_eq. intros j.
  rewrite (memcpy_lookup _ _ _ _ _ j E21), (memcpy_lookup _ _ _ _ _ j E12).
  rewrite (memcpy_lookup _ _ _ _ _ j Ha), (memcpy_lookup _ _ _ _ _ j Hb).
  repeat case_decide; try reflexivity; lia.
Qed.

Lemma int_add_inv (x y s : Z) : Int.add x y = Some s -> s = x + y.
Proof. unfold Int.add. destruct (Int.in_range (x + y)); congruence. Qed.

(** What a call of [set_parameter] that returns has done. *)
Lemma set_parameter_Some_inv (b : t) (c p : Z) (data : list byte) (r : t) :
  set_parameter b c p data = Some r ->
  exists comp off ty mem',
    component b c = Some comp /\
    ClosurePrimitive.argoffset (Component.cprim comp) p = Some off /\
    ClosurePrimitive.argtype (Component.cprim comp) p = Some ty /\
    Int.add (Component.memoffset comp) off = Some (Component.memoffset comp + off) /\
    memcpy (m_mem b) (Component.memoffset comp + off) data (TypeDesc_size ty)
    = Some mem' /\
    r = {| m_components := m_components b; m_mem := mem' |}.
Proof.
  unfold set_parameter, component. intros H.
  destruct (vector_at (m_components b) c) as [comp|] eqn:Ec;
    simpl in H; [|discriminate].
  destruct (ClosurePrimitive.argoffset _ p) as [off|] eqn:Eo;
    simpl in H; [|discriminate].
  destruct (ClosurePrimitive.argtype _ p) as [ty|] eqn:Et;
    simpl in H; [|discriminate].
  destruct (Int.add _ off) as [dst|] eqn:Ea; simpl in H; [|discriminate].
  pose proof (int_add_inv _ _ _ Ea) as ->.
  destruct (memcpy _ _ _ _) as [mem'|] eqn:E; simpl in H; [|discriminate].
  injection H as <-. exists comp, off, ty, mem'.
  repeat (split; [reflexivity || assumption|]). reflexivity.
Qed.

(** The call seen from its parts: the same steps in a buffer with the
    same components. *)
Lemma set_parameter_eq (b : t) (c p : Z) (data : list byte)
    (comp : Component.t) (off : Z) (ty : TypeDesc) :
  component b c = Some comp ->
  ClosurePrimitive.argoffset (Component.cprim comp) p = Some off ->
  ClosurePrimitive.argtype (Component.cprim comp) p = Some ty ->
  Int.add (Component.memoffset comp) off = Some (Component.memoffset comp + off) ->
  set_parameter b c p data
  = (mem ← memcpy (m_mem b) (Component.memoffset comp + off) data (TypeDesc_size ty);
     Some {| m_components := m_components b; m_mem := mem |}).
Proof.
  intros Hc Ho Ht Ha. unfold set_parameter. unfold component in Hc.
  rewrite Hc. simpl. rewrite Ho. simpl. rewrite Ht. simpl. rewrite Ha.
  reflexivity.
Qed.

(** Whether a call returns depends on the components, on the arena's
    length and on [data], not on the bytes in the arena. *)
Lemma set_parameter_is_Some_transfer (b b' : t) (c p : Z) (data : list byte) :
  m_components b' = m_components b -> length (m_mem b') = length (m_mem b) ->
  is_Some (set_parameter b c p data) -> is_Some (set_parameter b' c p data).
Proof.
  intros Hc Hl [r Hr].
  apply set_parameter_Some_inv in Hr
    as (comp & off & ty & mem' & Hcomp & Ho & Ht & Ha & Hm & _).
  assert (component b' c = Some comp) as Hcomp'
    by (unfold component in *; rewrite Hc; exact Hcomp).
  rewrite (set_parameter_eq b' c p data comp off ty Hcomp' Ho Ht Ha).
  apply memcpy_inv in Hm as (H0 & H1 & H2 & _).
  rewrite memcpy_Some by lia. simpl. eauto.
Qed.

(** In a descriptor with a proper layout, an index that has a type has
    an offset that is not negative, and the argument ends inside the
    [argmem] bytes. *)
Lemma layout_arg_range (pr : ClosurePrimitive.t) (p : Z) (ty : TypeDesc) (off : Z) :
  ClosurePrimitive.layout_ok pr ->
  ClosurePrimitive.argtype pr p = Some ty ->
  ClosurePrimitive.argoffset pr p = Some off ->
  0 <= p < ClosurePrimitive.nargs pr /\
  0 <= off /\ off + Z.of_nat (TypeDesc_size ty) <= ClosurePrimitive.argmem pr /\
  off = ClosurePrimitive.sum_list
          (take (Z.to_nat p) (ClosurePrimitive.sizes (ClosurePrimitive.m_argtypes pr))).
Proof.
  intros Hl Ht Ho.
  assert (0 <= p < ClosurePrimitive.nargs pr) as Hp.
  { pose proof Hl as (Hn & _ & _). unfold ClosurePrimitive.argtype in Ht.
    apply vector_at_Some in Ht as [H0 Ht]. apply lookup_lt_Some in Ht.
    unfold ClosurePrimitive.nargs. lia. }
  destruct (layout_arg pr p Hl Hp) as (ty' & Ht' & Ho' & H0 & H1).
  assert (ty' = ty) as -> by congruence.
  rewrite Ho in Ho'. injection Ho' as ->. auto.
Qed.

Lemma sum_list_take_mono (l : list Z) (i j : nat) :
  Forall (Z.le 0) l -> (i <= j)%nat ->
  ClosurePrimitive.sum_list (take i l) <= ClosurePrimitive.sum_list (take j l).
Proof.
  intros Hl Hij. replace (take i l) with (take i (take j l)).
  - apply sum_list_take_le, Forall_take, Hl.
  - rewrite take_take. f_equal. lia.
Qed.

(** The arguments of a descriptor with a proper layout do not overlap. *)
Lemma layout_args_disjoint (pr : ClosurePrimitive.t) (p q : Z)
    (tp tq : TypeDesc) (op oq : Z) :
  ClosurePrimitive.layout_ok pr -> p <> q ->
  ClosurePrimitive.argtype pr p = Some tp ->
  ClosurePrimitive.argoffset pr p = Some op ->
  ClosurePrimitive.argtype pr q = Some tq ->
  ClosurePrimitive.argoffset pr q = Some oq ->
  op + Z.of_nat (TypeDesc_size tp) <= oq \/ oq + Z.of_nat (TypeDesc_size tq) <= op.
Proof.
  intros Hl Hpq Htp Hop Htq Hoq.
  destruct (layout_arg_range pr p tp op Hl Htp Hop) as (Hp & _ & _ & ->).
  destruct (layout_arg_range pr q tq oq Hl Htq Hoq) as (Hq & _ & _ & ->).
  unfold ClosurePrimitive.argtype in Htp, Htq.
  apply vector_at_Some in Htp as [_ Htp]. apply vector_at_Some in Htq as [_ Htq].
  apply sizes_lookup in Htp, Htq.
  pose proof (sizes_nonneg (ClosurePrimitive.m_argtypes pr)) as Hnn.
  destruct (Z.lt_total p q) as [Hlt|[Heq|Hgt]]; [left | lia | right].
  - rewrite <- (sum_list_take_S _ _ _ Htp). apply sum_list_take_mono; [exact Hnn|lia].
  - rewrite <- (sum_list_take_S _ _ _ Htq). apply sum_list_take_mono; [exact Hnn|lia].
Qed.

Lemma vector_at_is_Some_iff {A : Type} (v : list A) (i : Z) :
  is_Some (vector_at v i) <-> 0 <= i < Z.of_nat (length v).
Proof.
  split.
  - intros [x Hx]. apply vector_at_Some in Hx as [H0 Hx].
    apply lookup_lt_Some in Hx. lia.
  - apply vector_at_is_Some.
Qed.

(** For a buffer whose component count fits an [int], [ncomponents ()]
    is that count, and [component (i)], [weight (i)] and [prim (i)] are
    defined for exactly the indices [0 <= i < ncomponents ()]. *)
Theorem introspection_defined_in_range (b : t) :
  Z.of_nat (length (m_components b)) <= Int.INT_MAX ->
  ncomponents b = Z.of_nat (length (m_components b)) /\
  forall i,
    (is_Some (component b i) <-> 0 <= i < ncomponents b) /\
    (is_Some (weight b i) <-> 0 <= i < ncomponents b) /\
    (is_Some (prim b i) <-> 0 <= i < ncomponents b).
Proof.
  intros Hfit. unfold ncomponents. rewrite of_size_small by exact Hfit.
  split; [reflexivity|]. intros i.
  unfold weight, prim. rewrite !fmap_is_Some. unfold component.
  pose proof (vector_at_is_Some_iff (m_components b) i). tauto.
Qed.

(** The facts about component [c] and its parameter [p] that the reads
    and writes below rest on, in a buffer that satisfies the invariant. *)
Lemma component_parameter (b : t) (c p : Z) (comp : Component.t)
    (ty : TypeDesc) (off : Z) :
  ok b -> component b c = Some comp ->
  ClosurePrimitive.argtype (Component.cprim comp) p = Some ty ->
  ClosurePrimitive.argoffset (Component.cprim comp) p = Some off ->
  0 <= Component.memoffset comp /\ 0 <= off /\
  off + Z.of_nat (TypeDesc_size ty) <= ClosurePrimitive.argmem (Component.cprim comp) /\
  Component.memoffset comp + ClosurePrimitive.argmem (Component.cprim comp)
    <= Z.of_nat (length (m_mem b)) /\
  compdata b c = Some (drop (Z.to_nat (Component.memoffset comp)) (m_mem b)).
Proof.
  intros Hok Hc Ht Ho.
  pose proof (component_ok b c comp Hok Hc) as (Hl & _ & Hs0 & Hs1).
  destruct (layout_arg_range _ p ty off Hl Ht Ho) as (_ & Ho0 & Ho1 & _).
  do 4 (split; [assumption|]).
  unfold compdata. rewrite Hc. simpl. apply addr_of_Some. lia.
Qed.

Lemma parameter_bytes_eq (b : t) (c p : Z) (comp : Component.t)
    (ty : TypeDesc) (off : Z) :
  ok b -> component b c = Some comp ->
  ClosurePrimitive.argtype (Component.cprim comp) p = Some ty ->
  ClosurePrimitive.argoffset (Component.cprim comp) p = Some off ->
  parameter_bytes b c p
  = read_bytes (m_mem b) (Component.memoffset comp + off) (TypeDesc_size ty).
Proof.
  intros Hok Hc Ht Ho.
  destruct (component_parameter b c p comp ty off Hok Hc Ht Ho)
    as (Hm0 & Ho0 & Ho1 & Hs & Hd).
  unfold parameter_bytes. rewrite Hc. simpl. rewrite Ho. simpl.
  rewrite Ht. simpl. rewrite Hd. simpl.
  apply read_bytes_addr_of; [|exact Ho0]. apply addr_of_Some. lia.
Qed.

(** In a buffer that satisfies the invariant, [compdata (c)] of a valid
    component has at least [argmem] readable bytes, and each parameter
    [p] below [nargs] is read inside them: the read returns
    [argtype (p).size ()] bytes. *)
Theorem parameter_reads_in_bounds (b : t) (c p : Z) (comp : Component.t) :
  ok b -> component b c = Some comp ->
  0 <= p < ClosurePrimitive.nargs (Component.cprim comp) ->
  exists d ty off bytes,
    compdata b c = Some d /\
    (Z.to_nat (ClosurePrimitive.argmem (Component.cprim comp)) <= length d)%nat /\
    ClosurePrimitive.argtype (Component.cprim comp) p = Some ty /\
    ClosurePrimitive.argoffset (Component.cprim comp) p = Some off /\
    0 <= off /\ (Z.to_nat off + TypeDesc_size ty <= length d)%nat /\
    parameter_bytes b c p = Some bytes /\
    length bytes = TypeDesc_size ty.
Proof.
  intros Hok Hc Hp.
  pose proof (component_ok b c comp Hok Hc) as (Hl & _).
  destruct (layout_arg _ p Hl Hp) as (ty & Ht & Ho & _).
  set (off := ClosurePrimitive.sum_list _) in *.
  destruct (component_parameter b c p comp ty off Hok Hc Ht Ho)
    as (Hm0 & Ho0 & Ho1 & Hs & Hd).
  eexists _, ty, off, _. split; [exact Hd|]. rewrite length_drop.
  split; [lia|]. split; [exact Ht|]. split; [exact Ho|]. split; [exact Ho0|].
  split; [lia|].
  rewrite (parameter_bytes_eq b c p comp ty off Hok Hc Ht Ho).
  rewrite read_bytes_Some by lia. split; [reflexivity|].
  rewrite length_take, length_drop. lia.
Qed.

(** In a buffer that satisfies the invariant, a parameter read after
    [set_parameter] wrote it gives the bytes written: the first
    [argtype (p).size ()] bytes of [data]. *)
Theorem set_parameter_read_back (b : t) (c p : Z) (data : list byte) (r : t) :
  ok b -> set_parameter b c p data = Some r ->
  exists comp ty,
    component b c = Some comp /\
    ClosurePrimitive.argtype (Component.cprim comp) p = Some ty /\
    parameter_bytes r c p = Some (take (TypeDesc_size ty) data).
Proof.
  intros Hok Hr. pose proof (ok_set_parameter _ _ _ _ _ Hok Hr) as Hok'.
  apply set_parameter_Some_inv in Hr
    as (comp & off & ty & mem' & Hc & Ho & Ht & _ & Hm & ->).
  exists comp, ty. split; [exact Hc|]. split; [exact Ht|].
  rewrite (parameter_bytes_eq _ c p comp ty off Hok' Hc Ht Ho). simpl.
  eapply read_bytes_memcpy_same, Hm.
Qed.

(** Of two calls of [set_parameter] for the same parameter the last one
    counts: after a call that returned, a second call gives what it
    would have given alone; repeating the call changes nothing. *)
Theorem set_parameter_last_write_wins (b : t) (c p : Z) (d1 d2 : list byte)
    (r1 : t) :
  set_parameter b c p d1 = Some r1 ->
  set_parameter r1 c p d2 = set_parameter b c p d2 /\
  set_parameter r1 c p d1 = Some r1.
Proof.
  intros Hr.
  assert (forall d, set_parameter r1 c p d = set_parameter b c p d) as Hsame.
  { intros d. apply set_parameter_Some_inv in Hr
      as (comp & off & ty & mem' & Hc & Ho & Ht & Ha & Hm & ->).
    rewrite (set_parameter_eq {| m_components := m_components b; m_mem := mem' |}
               c p d comp off ty Hc Ho Ht Ha).
    rewrite (set_parameter_eq b c p d comp off ty Hc Ho Ht Ha). simpl.
    rewrite (memcpy_memcpy_same _ _ _ _ _ _ Hm). reflexivity. }
  split; [apply Hsame|]. rewrite Hsame. exact Hr.
Qed.

(** The range a call of [set_parameter] writes lies inside the slot of
    its component. *)
Lemma written_range_in_slot (b : t) (c p : Z) (comp : Component.t)
    (ty : TypeDesc) (off : Z) :
  ok b -> component b c = Some comp ->
  ClosurePrimitive.argtype (Component.cprim comp) p = Some ty ->
  ClosurePrimitive.argoffset (Component.cprim comp) p = Some off ->
  Component.memoffset comp <= Component.memoffset comp + off /\
  Component.memoffset comp + off + Z.of_nat (TypeDesc_size ty)
    <= Component.memoffset comp + ClosurePrimitive.argmem (Component.cprim comp).
Proof.
  intros Hok Hc Ht Ho.
  destruct (component_parameter b c p comp ty off Hok Hc Ht Ho)
    as (Hm0 & Ho0 & Ho1 & Hs & Hd). lia.
Qed.

(** The ranges written for two different parameters of one component,
    or for parameters of two components with disjoint slots, do not
    meet. *)
Lemma written_ranges_disjoint (b : t) (c c' p q : Z) (x y : Component.t)
    (tp tq : TypeDesc) (op oq : Z) :
  ok b ->
  (c = c' /\ p <> q) \/
  (forall x y, component b c = Some x -> component b c' = Some y ->
               slots_disjoint x y) ->
  component b c = Some x -> component b c' = Some y ->
  ClosurePrimitive.argtype (Component.cprim x) p = Some tp ->
  ClosurePrimitive.argoffset (Component.cprim x) p = Some op ->
  ClosurePrimitive.argtype (Component.cprim y) q = Some tq ->
  ClosurePrimitive.argoffset (Component.cprim y) q = Some oq ->
  Component.memoffset x + op + Z.of_nat (TypeDesc_size tp)
    <= Component.memoffset y + oq \/
  Component.memoffset y + oq + Z.of_nat (TypeDesc_size tq)
    <= Component.memoffset x + op.
Proof.
  intros Hok Hcase Hx Hy Htp Hop Htq Hoq.
  destruct Hcase as [[<- Hpq]|Hdis].
  - assert (y = x) as -> by congruence.
    pose proof (component_ok b c x Hok Hx) as (Hl & _).
    destruct (layout_args_disjoint _ p q tp tq op oq Hl Hpq Htp Hop Htq Hoq); lia.
  - pose proof (written_range_in_slot b c p x tp op Hok Hx Htp Hop).
    pose proof (written_range_in_slot b c' q y tq oq Hok Hy Htq Hoq).
    destruct (Hdis x y Hx Hy); lia.
Qed.

(** In a buffer that satisfies the invariant, two calls of
    [set_parameter] for different parameters of one component, or for
    parameters of two components whose slots do not overlap, give the
    same result in either order (and no result in either order when one
    of them gives none). *)
Theorem set_parameter_commute (b : t) (c c' p q : Z) (d1 d2 : list byte) :
  ok b ->
  (c = c' /\ p <> q) \/
  (forall x y, component b c = Some x -> component b c' = Some y ->
               slots_disjoint x y) ->
  (set_parameter b c p d1 ≫= fun r => set_parameter r c' q d2)
  = (set_parameter b c' q d2 ≫= fun r => set_parameter r c p d1).
Proof.
  intros Hok Hcase.
  destruct (set_parameter b c p d1) as [r1|] eqn:E1;
    destruct (set_parameter b c' q d2) as [r2|] eqn:E2; simpl.
  - pose proof (set_parameter_inv _ _ _ _ _ E1) as [Hc1 Hl1].
    pose proof (set_parameter_inv _ _ _ _ _ E2) as [Hc2 Hl2].
    apply set_parameter_Some_inv in E1
      as (x & op & tp & m1 & Hx & Hop & Htp & Hap & Hm1 & ->).
    apply set_parameter_Some_inv in E2
      as (y & oq & tq & m2 & Hy & Hoq & Htq & Haq & Hm2 & ->).
    pose proof (written_ranges_disjoint b c c' p q x y tp tq op oq
                  Hok Hcase Hx Hy Htp Hop Htq Hoq) as Hdis.
    destruct (memcpy_commute _ _ _ _ _ _ _ _ _ Hm1 Hm2) as (m & H12 & H21);
      [lia|].
    rewrite (set_parameter_eq {| m_components := m_components b; m_mem := m1 |}
               c' q d2 y oq tq Hy Hoq Htq Haq).
    rewrite (set_parameter_eq {| m_components := m_components b; m_mem := m2 |}
               c p d1 x op tp Hx Hop Htp Hap). simpl.
    rewrite H12, H21. reflexivity.
  - destruct (set_parameter r1 c' q d2) as [r|] eqn:E; [|reflexivity].
    pose proof (set_parameter_inv _ _ _ _ _ E1) as [Hc1 Hl1].
    destruct (set_parameter_is_Some_transfer r1 b c' q d2) as [r' Hr'];
      [congruence | congruence | eauto | congruence].
  - destruct (set_parameter r2 c p d1) as [r|] eqn:E; [|reflexivity].
    pose proof (set_parameter_inv _ _ _ _ _ E2) as [Hc2 Hl2].
    destruct (set_parameter_is_Some_transfer r2 b c p d1) as [r' Hr'];
      [congruence | congruence | eauto | congruence].
  - reflexivity.
Qed.

(** A parameter whose range the call does not write reads as before. *)
Lemma parameter_bytes_set_parameter (b : t) (c c' p q : Z) (data : list byte)
    (r : t) :
  ok b -> set_parameter b c p data = Some r ->
  (c = c' /\ p <> q) \/
  (forall x y, component b c = Some x -> component b c' = Some y ->
               slots_disjoint x y) ->
  parameter_bytes r c' q = parameter_bytes b c' q.
Proof.
  intros Hok Hr Hcase. pose proof (ok_set_parameter _ _ _ _ _ Hok Hr) as Hok'.
  apply set_parameter_Some_inv in Hr
    as (x & op & tp & mem' & Hx & Hop & Htp & _ & Hm & ->).
  assert (exists o, component b c' = o) as [[y|] Hy] by eauto.
  2: { unfold parameter_bytes, component in *. simpl. rewrite Hy. reflexivity. }
  destruct (ClosurePrimitive.argoffset (Component.cprim y) q) as [oq|] eqn:Hoq.
  2: { unfold parameter_bytes, component in *. simpl. rewrite Hy. simpl.
       rewrite Hoq. reflexivity. }
  destruct (ClosurePrimitive.argtype (Component.cprim y) q) as [tq|] eqn:Htq.
  2: { unfold parameter_bytes, component in *. simpl. rewrite Hy. simpl.
       rewrite Hoq. simpl. rewrite Htq. reflexivity. }
  rewrite (parameter_bytes_eq _ c' q y tq oq Hok' Hy Htq Hoq).
  rewrite (parameter_bytes_eq b c' q y tq oq Hok Hy Htq Hoq). simpl.
  pose proof (written_ranges_disjoint b c c' p q x y tp tq op oq
                Hok Hcase Hx Hy Htp Hop Htq Hoq) as Hdis.
  eapply read_bytes_memcpy_disjoint; [exact Hm | lia].
Qed.

(** In a buffer that satisfies the invariant, a call of [set_parameter]
    that returns leaves every other parameter of the same component as
    it was read before, and leaves the packed parameter bytes and every
    parameter of each component whose slot does not overlap the slot of
    the component written. *)
Theorem set_parameter_keeps_other_parameters (b : t) (c p : Z)
    (data : list byte) (r : t) :
  ok b -> set_parameter b c p data = Some r ->
  (forall q, q <> p -> parameter_bytes r c q = parameter_bytes b c q) /\
  (forall c' x y,
     component b c = Some x -> component b c' = Some y -> slots_disjoint x y ->
     params_of r c' = params_of b c' /\
     forall q, parameter_bytes r c' q = parameter_bytes b c' q).
Proof.
  intros Hok Hr. split.
  - intros q Hq. eapply parameter_bytes_set_parameter; eauto.
  - intros c' x y Hx Hy Hdis. split.
    + pose proof (component_ok b c' y Hok Hy) as (Hl & _ & Hs0 & Hs1).
      pose proof (layout_argmem_nonneg _ Hl) as Hmem.
      pose proof (set_parameter_inv _ _ _ _ _ Hr) as [_ Hlen].
      apply set_parameter_Some_inv in Hr
        as (x' & op & tp & mem' & Hx' & Hop & Htp & _ & Hm & ->).
      assert (x' = x) as -> by congruence.
      pose proof (written_range_in_slot b c p x tp op Hok Hx Htp Hop) as Hin.
      simpl in Hlen.
      assert (read_bytes mem' (Component.memoffset y)
                (Z.to_nat (ClosurePrimitive.argmem (Component.cprim y)))
              = read_bytes (m_mem b) (Component.memoffset y)
                  (Z.to_nat (ClosurePrimitive.argmem (Component.cprim y)))) as Hread.
      { eapply read_bytes_memcpy_disjoint; [exact Hm|].
        destruct Hdis; lia. }
      rewrite !read_bytes_Some in Hread by lia.
      unfold params_of, component in *. simpl. rewrite Hy. simpl.
      rewrite !addr_of_Some by lia. simpl. exact Hread.
    + intros q. eapply parameter_bytes_set_parameter; eauto.
      right. intros x' y' Hx' Hy'.
      assert (x' = x) as -> by congruence.
      assert (y' = y) as -> by congruence. exact Hdis.
Qed.

(** In a buffer that satisfies the invariant, with an arena of less than
    2^31 bytes, [set_parameter (c, p, data)] returns exactly when [c] is
    the index of a component, [p] is below that component's [nargs], and
    [data] has the bytes of the parameter's type. *)
Theorem set_parameter_defined_iff (b : t) (c p : Z) (data : list byte) :
  ok b -> Z.of_nat (length (m_mem b)) <= Int.INT_MAX ->
  (is_Some (set_parameter b c p data) <->
   exists comp ty,
     component b c = Some comp /\
     0 <= p < ClosurePrimitive.nargs (Component.cprim comp) /\
     ClosurePrimitive.argtype (Component.cprim comp) p = Some ty /\
     (TypeDesc_size ty <= length data)%nat).
Proof.
  intros Hok Hfit. split.
  - intros [r Hr]. apply set_parameter_Some_inv in Hr
      as (comp & off & ty & mem' & Hc & Ho & Ht & _ & Hm & _).
    pose proof (component_ok b c comp Hok Hc) as (Hl & _).
    destruct (layout_arg_range _ p ty off Hl Ht Ho) as (Hp & _).
    apply memcpy_inv in Hm as (_ & _ & Hd & _).
    exists comp, ty. auto.
  - intros (comp & ty & Hc & Hp & Ht & Hd).
    pose proof (component_ok b c comp Hok Hc) as (Hl & _).
    destruct (layout_arg _ p Hl Hp) as (ty' & Ht' & Ho & _).
    assert (ty' = ty) as -> by congruence.
    set (off := ClosurePrimitive.sum_list _) in *.
    destruct (component_parameter b c p comp ty off Hok Hc Ht Ho)
      as (Hm0 & Ho0 & Ho1 & Hs & _).
    rewrite (set_parameter_eq b c p data comp off ty Hc Ho Ht).
    + rewrite memcpy_Some by lia. simpl. eauto.
    + apply int_add_small. unfold Int.INT_MIN. lia.
Qed.

Lemma component_copy_id (c : Component.t) :
  Component.copy c = c <->
  Component.memoffset c = 0 /\
  Component.nargs c = ClosurePrimitive.nargs (Component.cprim c).
Proof.
  destruct c as [pr n mo w]. unfold Component.copy. simpl. split.
  - intros [= <- <-]. auto.
  - intros [-> ->]. reflexivity.
Qed.

(** Copying a copy gives the copy again.  A copy equals the buffer
    copied exactly when every component of the buffer has [memoffset] 0
    and the argument count of its descriptor; and a copy of a buffer that
    satisfies the invariant satisfies it, so its parameter reads stay
    inside the arena. *)
Theorem copy_faithful_iff (x : t) :
  copy (copy x) = copy x /\
  (copy x = x <->
   forall i c, component x i = Some c ->
     Component.memoffset c = 0 /\
     Component.nargs c = ClosurePrimitive.nargs (Component.cprim c)) /\
  (ok x -> ok (copy x)).
Proof.
  split; [|split].
  - unfold copy. simpl. f_equal. rewrite <- list_fmap_compose.
    apply list_fmap_ext. intros i c _. reflexivity.
  - destruct x as [comps mem]. unfold copy, component. simpl. split.
    + intros [= Heq] i c Hc. apply component_copy_id.
      apply vector_at_Some in Hc as [_ Hc].
      assert ((Component.copy <$> comps) !! Z.to_nat i = Some (Component.copy c)) as H
        by (rewrite list_lookup_fmap, Hc; reflexivity).
      rewrite Heq, Hc in H. congruence.
    + intros H. f_equal. rewrite <- (list_fmap_id comps) at 2.
      apply list_fmap_ext. intros i c Hc. apply component_copy_id.
      apply (H (Z.of_nat i)). rewrite vector_at_of_nat. exact Hc.
  - apply ok_copy.
Qed.

(** In a descriptor with the constructor's layout, [argtype (i)] and
    [argoffset (i)] are defined for exactly the indices
    [0 <= i < nargs ()]; no offset is negative, an argument ends where
    a later one starts or before, and every argument ends inside the
    [argmem ()] bytes. *)
Theorem descriptor_arguments_ordered (pr : ClosurePrimitive.t) :
  ClosurePrimitive.layout_ok pr ->
  (forall i,
     (is_Some (ClosurePrimitive.argtype pr i)
      <-> 0 <= i < ClosurePrimitive.nargs pr) /\
     (is_Some (ClosurePrimitive.argoffset pr i)
      <-> 0 <= i < ClosurePrimitive.nargs pr)) /\
  (forall p tp op,
     ClosurePrimitive.argtype pr p = Some tp ->
     ClosurePrimitive.argoffset pr p = Some op ->
     0 <= op /\
     op + Z.of_nat (TypeDesc_size tp) <= ClosurePrimitive.argmem pr /\
     forall q oq, p < q -> ClosurePrimitive.argoffset pr q = Some oq ->
       op + Z.of_nat (TypeDesc_size tp) <= oq).
Proof.
  intros Hl. pose proof Hl as (Hn & Ho & Hm). split.
  - intros i. unfold ClosurePrimitive.argtype, ClosurePrimitive.argoffset,
      ClosurePrimitive.nargs.
    rewrite !vector_at_is_Some_iff, Ho, prefix_sums_length.
    unfold ClosurePrimitive.sizes. rewrite length_fmap, Hn. tauto.
  - intros p tp op Htp Hop.
    destruct (layout_arg_range pr p tp op Hl Htp Hop) as (Hp & H0 & H1 & Hsum).
    split; [exact H0|]. split; [exact H1|].
    intros q oq Hpq Hoq.
    assert (is_Some (ClosurePrimitive.argtype pr q)) as [tq Htq].
    { unfold ClosurePrimitive.argtype, ClosurePrimitive.argoffset in *.
      apply vector_at_is_Some_iff.
      assert (is_Some (vector_at (ClosurePrimitive.m_argoffsets pr) q)) as Hs
        by eauto.
      apply vector_at_is_Some_iff in Hs.
      rewrite Ho, prefix_sums_length in Hs.
      unfold ClosurePrimitive.sizes in Hs. rewrite length_fmap in Hs. exact Hs. }
    destruct (layout_arg_range pr q tq oq Hl Htq Hoq) as (_ & _ & _ & Hsumq).
    unfold ClosurePrimitive.argtype in Htp.
    apply vector_at_Some in Htp as [_ Htp]. apply sizes_lookup in Htp.
    subst op oq. rewrite <- (sum_list_take_S _ _ _ Htp).
    apply sum_list_take_mono; [apply sizes_nonneg | lia].
Qed.

End ParameterProofs.

(** ** The theorems at the sample objects *)

Section SampleProofs.

#[local] Existing Instance sample_typedesc.

Import Sample.

Lemma sample_new_diffuse : BSDFClosure "diffuse" "v" = Some diffuse.
Proof. reflexivity. Qed.

Lemma sample_new_phong : BSDFClosure "phong" "vff" = Some phong.
Proof. reflexivity. Qed.

Lemma sample_new_emission : EmissiveClosure "emission" "ff" = Some emission.
Proof. reflexivity. Qed.

Lemma sample_red_diffuse :
  ClosureColor.add_component ClosureColor.new diffuse red (Some normal_z)
  = Some red_diffuse.
Proof. reflexivity. Qed.

Lemma sample_green_diffuse :
  ClosureColor.add_component ClosureColor.new diffuse green (Some normal_x)
  = Some green_diffuse.
Proof. reflexivity. Qed.

Lemma sample_white_phong :
  ClosureColor.set green_diffuse phong (Some phong_params) = Some white_phong.
Proof. reflexivity. Qed.

Lemma sample_reachable_red : ClosureColor.reachable red_diffuse.
Proof.
  eapply ClosureColor.reach_add_component;
    [apply ClosureColor.reach_new | exact sample_new_diffuse
     | exact sample_red_diffuse].
Qed.

Lemma sample_reachable_green : ClosureColor.reachable green_diffuse.
Proof.
  eapply ClosureColor.reach_add_component;
    [apply ClosureColor.reach_new | exact sample_new_diffuse
     | exact sample_green_diffuse].
Qed.

Lemma sample_reachable_phong : ClosureColor.reachable white_phong.
Proof.
  eapply ClosureColor.reach_set;
    [apply sample_reachable_green | exact sample_new_phong
     | exact sample_white_phong].
Qed.

Lemma new_argmem_argoffsets_witness :
  ClosurePrimitive.new "phong" "vff" 0 = Some phong /\
  ClosurePrimitive.argmem phong
  = ClosurePrimitive.sum_list
      (ClosurePrimitive.sizes (ClosurePrimitive.m_argtypes phong)) /\
  (0 < ClosurePrimitive.nargs phong -> ClosurePrimitive.argoffset phong 0 = Some 0) /\
  exists o ty,
    ClosurePrimitive.argoffset phong 1 = Some o /\
    ClosurePrimitive.argtype phong 1 = Some ty /\
    ClosurePrimitive.argoffset phong (1 + 1) = Some (o + Z.of_nat (TypeDesc_size ty)).
Proof.
  assert (ClosurePrimitive.new "phong" "vff" 0 = Some phong) as H by reflexivity.
  destruct (new_argmem_argoffsets "phong" "vff" 0 phong H)
    as (_ & _ & Hm & _ & H0 & Hs).
  split; [exact H|]. split; [exact Hm|]. split; [exact H0|].
  apply Hs; simpl; lia.
Defined.

Lemma category_fixed_by_subclass_witness :
  BSDFClosure "diffuse" "v" = Some diffuse /\
  EmissiveClosure "emission" "ff" = Some emission /\
  ClosurePrimitive.category
    (foldr ClosurePrimitive.after_call diffuse
       [ClosurePrimitive.CallCategory; ClosurePrimitive.CallArgtype 0])
  = ClosurePrimitive.Category_to_int ClosurePrimitive.BSDF /\
  ClosurePrimitive.category
    (foldr ClosurePrimitive.after_call emission
       [ClosurePrimitive.CallArgmem; ClosurePrimitive.CallName])
  = ClosurePrimitive.Category_to_int ClosurePrimitive.Emissive.
Proof.
  split; [reflexivity|]. split; [reflexivity|]. split.
  - apply (category_fixed_by_subclass "diffuse" "v"). reflexivity.
  - apply (category_fixed_by_subclass "emission" "ff"). reflexivity.
Defined.

Lemma set_is_clear_then_add_component_witness :
  (forall data, Some normal_z = Some data ->
     (Z.to_nat (ClosurePrimitive.argmem diffuse) <= length data)%nat) /\
  exists r, ClosureColor.set white_phong diffuse (Some normal_z) = Some r /\
    ClosureColor.ncomponents r = 1 /\
    ClosureColor.weight r 0 = Some white /\
    ClosureColor.prim r 0 = Some diffuse /\
    ClosureColor.params_of r 0 = Some normal_z.
Proof.
  assert (forall data, Some normal_z = Some data ->
            (Z.to_nat (ClosurePrimitive.argmem diffuse) <= length data)%nat) as H.
  { intros data [= <-]. simpl. lia. }
  split; [exact H|].
  destruct (set_is_clear_then_add_component white_phong diffuse (Some normal_z))
    as [_ Hset].
  destruct (Hset H) as (r & Hr & Hn & _ & Hw & Hp & _ & _ & Hbytes).
  exists r. split; [exact Hr|]. split; [exact Hn|]. split; [exact Hw|].
  split; [exact Hp|]. apply (Hbytes normal_z eq_refl).
Defined.

Lemma add_component_count_witness :
  Z.of_nat (length (ClosureColor.m_components red_diffuse)
            + length (ClosureColor.m_components green_diffuse)) <= Int.INT_MAX /\
  ClosureColor.add_component ClosureColor.new diffuse
    (mkColor3 float_1 float_0 float_0) (Some normal_z) = Some red_diffuse /\
  ClosureColor.add_component ClosureColor.new diffuse
    (mkColor3 float_0 float_1 float_0) (Some normal_x) = Some green_diffuse /\
  ClosureColor.ncomponents (ClosureColor.add2 white_phong red_diffuse green_diffuse)
  = ClosureColor.ncomponents red_diffuse + ClosureColor.ncomponents green_diffuse /\
  ClosureColor.ncomponents (ClosureColor.add2 white_phong red_diffuse green_diffuse) = 2 /\
  ClosureColor.weight (ClosureColor.add2 white_phong red_diffuse green_diffuse) 0
  = Some red /\
  ClosureColor.weight (ClosureColor.add2 white_phong red_diffuse green_diffuse) 1
  = Some green.
Proof.
  destruct (add_component_count white_phong red_diffuse green_diffuse)
    as (_ & _ & Hcount & Hscen).
  assert (Z.of_nat (length (ClosureColor.m_components red_diffuse)
                    + length (ClosureColor.m_components green_diffuse))
          <= Int.INT_MAX) as Hfit by (vm_compute; discriminate).
  split; [exact Hfit|]. split; [reflexivity|]. split; [reflexivity|].
  split; [apply (Hcount Hfit)|].
  destruct (Hscen diffuse (Some normal_z) (Some normal_x) eq_refl eq_refl)
    as (Hn & Hw0 & Hw1 & _).
  split; [exact Hn|]. split; [exact Hw0 | exact Hw1].
Defined.

Lemma set_parameter_overwrites_one_argument_witness :
  ClosureColor.ok white_phong /\
  Z.of_nat (length (ClosureColor.m_mem white_phong)) <= Int.INT_MAX /\
  0 <= 1 < ClosurePrimitive.nargs phong /\
  exists r,
    ClosureColor.set_parameter white_phong 0 1 half_bytes = Some r /\
    ClosureColor.m_components r = ClosureColor.m_components white_phong /\
    length (ClosureColor.m_mem r) = length (ClosureColor.m_mem white_phong).
Proof.
  assert (ClosureColor.ok white_phong) as Hok
    by (apply reachable_ok, sample_reachable_phong).
  assert (Z.of_nat (length (ClosureColor.m_mem white_phong)) <= Int.INT_MAX)
    as Hfit by (vm_compute; discriminate).
  assert (0 <= 1 < ClosurePrimitive.nargs phong) as Hp by (simpl; lia).
  split; [exact Hok|]. split; [exact Hfit|]. split; [exact Hp|].
  destruct (set_parameter_overwrites_one_argument white_phong 0 1 half_bytes
              (Component.mk phong 3 0 white) Hok Hfit eq_refl Hp)
    as (ty & off & r & _ & _ & Hr & Hc & _ & Hlen & _).
  { intros ty [= <-]. simpl. lia. }
  exists r. split; [exact Hr|]. split; [exact Hc | exact Hlen].
Defined.

Lemma component_nargs_is_descriptor_nargs_witness :
  ClosureColor.reachable white_phong /\
  forall i c, ClosureColor.component white_phong i = Some c ->
    Component.nargs c = ClosurePrimitive.nargs (Component.cprim c).
Proof.
  split; [exact sample_reachable_phong|].
  apply (component_nargs_is_descriptor_nargs white_phong sample_reachable_phong).
Defined.

Lemma add_preserves_source_layout_witness :
  store !! 1%positive = Some white_phong /\
  store !! 2%positive = Some red_diffuse /\
  store !! 3%positive = Some green_diffuse /\
  ClosureColor.ok white_phong /\ ClosureColor.ok red_diffuse /\
  ClosureColor.ok green_diffuse /\
  exists h' r,
    Store.call_add2 store 1%positive 2%positive 3%positive = Some h' /\
    h' !! 1%positive = Some r /\
    ClosureColor.same_component red_diffuse 0 r 0 /\
    ClosureColor.same_component green_diffuse 0 r 1 /\
    h' !! 2%positive = Some red_diffuse /\
    h' !! 3%positive = Some green_diffuse.
Proof.
  assert (store !! 1%positive = Some white_phong) as H1 by reflexivity.
  assert (store !! 2%positive = Some red_diffuse) as H2 by reflexivity.
  assert (store !! 3%positive = Some green_diffuse) as H3 by reflexivity.
  assert (ClosureColor.ok white_phong) as Hx
    by (apply reachable_ok, sample_reachable_phong).
  assert (ClosureColor.ok red_diffuse) as Ha
    by (apply reachable_ok, sample_reachable_red).
  assert (ClosureColor.ok green_diffuse) as Hb
    by (apply reachable_ok, sample_reachable_green).
  do 6 (split; [assumption|]).
  destruct (add_preserves_source_layout store 1%positive 2%positive 3%positive
              white_phong red_diffuse green_diffuse H1 H2 H3 Hx Ha Hb)
    as [_ (h' & r & Hcall & Hr & _ & Hl & Hrr & Hframe)].
  exists h', r. split; [exact Hcall|]. split; [exact Hr|].
  split; [apply Hl; simpl; lia|].
  split; [apply (Hrr 0); simpl; lia|].
  split; [rewrite Hframe by discriminate; exact H2
         | rewrite Hframe by discriminate; exact H3].
Defined.

Lemma set_parameter_keeps_components_witness :
  ClosureColor.set_parameter white_phong 0 2 half_bytes
  = Some {| ClosureColor.m_components := ClosureColor.m_components white_phong;
            ClosureColor.m_mem :=
              normal_z ++ [x00; x00; x80; x3f] ++ half_bytes |} /\
  ClosureColor.ncomponents
    {| ClosureColor.m_components := ClosureColor.m_components white_phong;
       ClosureColor.m_mem := normal_z ++ [x00; x00; x80; x3f] ++ half_bytes |}
  = ClosureColor.ncomponents white_phong.
Proof.
  split; [reflexivity|].
  apply (set_parameter_keeps_components white_phong 0 2 half_bytes). reflexivity.
Defined.

(** The operations evaluated at the sample objects. *)

Example sample_unknown_letter : BSDFClosure "ward" "vq" = None.
Proof. reflexivity. Qed.

Example sample_wrap : Int.wrap (2 ^ 31) = - 2 ^ 31 /\ Int.add Int.INT_MAX 1 = None.
Proof. split; reflexivity. Qed.

Example sample_add2 :
  ClosureColor.add2 white_phong red_diffuse green_diffuse
  = {| ClosureColor.m_components :=
         [ {| Component.cprim := diffuse; Component.nargs := 1;
              Component.memoffset := 0; Component.weight := red |};
           {| Component.cprim := diffuse; Component.nargs := 1;
              Component.memoffset := 12; Component.weight := green |} ];
       ClosureColor.m_mem := normal_z ++ normal_x |}.
Proof. reflexivity. Qed.

Example sample_add_params :
  ClosureColor.params_of
    (ClosureColor.add2 white_phong red_diffuse green_diffuse) 1
  = Some normal_x.
Proof. reflexivity. Qed.

Example sample_copy_params :
  ClosureColor.params_of
    (ClosureColor.copy (ClosureColor.add2 white_phong red_diffuse green_diffuse)) 1
  = Some normal_z.
Proof. reflexivity. Qed.

Example sample_mul :
  ClosureColor.weight (ClosureColor.mul white_phong float_neg2) 0
  = Some (mkColor3 float_neg2 float_neg2 float_neg2) /\
  ClosureColor.weight (ClosureColor.mul_Color3 white_phong red) 0 = Some red /\
  ClosureColor.m_mem (ClosureColor.mul white_phong float_3) = phong_params.
Proof. repeat split. Qed.

Example sample_set_parameter_out_of_range :
  ClosureColor.set_parameter white_phong 1 0 half_bytes = None /\
  ClosureColor.set_parameter white_phong 0 3 half_bytes = None /\
  ClosureColor.set_parameter white_phong 0 (-1) half_bytes = None.
Proof. repeat split. Qed.

Lemma sample_reachable_red_green : ClosureColor.reachable red_green.
Proof.
  exact (ClosureColor.reach_add2 white_phong red_diffuse green_diffuse
           sample_reachable_phong sample_reachable_red sample_reachable_green).
Qed.

Lemma sample_phong_half :
  ClosureColor.set_parameter white_phong 0 1 half_bytes = Some phong_half.
Proof. reflexivity. Qed.

Lemma introspection_defined_in_range_witness :
  Z.of_nat (length (ClosureColor.m_components red_green)) <= Int.INT_MAX /\
  ClosureColor.ncomponents red_green
  = Z.of_nat (length (ClosureColor.m_components red_green)) /\
  (is_Some (ClosureColor.weight red_green 2)
   <-> 0 <= 2 < ClosureColor.ncomponents red_green).
Proof.
  assert (Z.of_nat (length (ClosureColor.m_components red_green)) <= Int.INT_MAX)
    as Hfit by (vm_compute; discriminate).
  destruct (introspection_defined_in_range red_green Hfit) as [Hn Hi].
  split; [exact Hfit|]. split; [exact Hn|]. apply (Hi 2).
Defined.

Lemma parameter_reads_in_bounds_witness :
  ClosureColor.ok white_phong /\
  ClosureColor.component white_phong 0 = Some (Component.mk phong 3 0 white) /\
  0 <= 2 < ClosurePrimitive.nargs phong /\
  exists d ty off bytes,
    ClosureColor.compdata white_phong 0 = Some d /\
    (Z.to_nat (ClosurePrimitive.argmem phong) <= length d)%nat /\
    ClosurePrimitive.argtype phong 2 = Some ty /\
    ClosurePrimitive.argoffset phong 2 = Some off /\
    0 <= off /\ (Z.to_nat off + TypeDesc_size ty <= length d)%nat /\
    ClosureColor.parameter_bytes white_phong 0 2 = Some bytes /\
    length bytes = TypeDesc_size ty.
Proof.
  assert (ClosureColor.ok white_phong) as Hok
    by (apply reachable_ok, sample_reachable_phong).
  assert (0 <= 2 < ClosurePrimitive.nargs phong) as Hp by (simpl; lia).
  split; [exact Hok|]. split; [reflexivity|]. split; [exact Hp|].
  exact (parameter_reads_in_bounds white_phong 0 2 (Component.mk phong 3 0 white)
           Hok eq_refl Hp).
Defined.

Lemma set_parameter_read_back_witness :
  ClosureColor.ok white_phong /\
  ClosureColor.set_parameter white_phong 0 1 half_bytes = Some phong_half /\
  exists comp ty,
    ClosureColor.component white_phong 0 = Some comp /\
    ClosurePrimitive.argtype (Component.cprim comp) 1 = Some ty /\
    ClosureColor.parameter_bytes phong_half 0 1
    = Some (take (TypeDesc_size ty) half_bytes).
Proof.
  assert (ClosureColor.ok white_phong) as Hok
    by (apply reachable_ok, sample_reachable_phong).
  split; [exact Hok|]. split; [exact sample_phong_half|].
  exact (set_parameter_read_back white_phong 0 1 half_bytes phong_half
           Hok sample_phong_half).
Defined.

Lemma set_parameter_last_write_wins_witness :
  ClosureColor.set_parameter white_phong 0 1 half_bytes = Some phong_half /\
  ClosureColor.set_parameter phong_half 0 1 [x00; x00; x80; x3f]
  = ClosureColor.set_parameter white_phong 0 1 [x00; x00; x80; x3f] /\
  ClosureColor.set_parameter phong_half 0 1 half_bytes = Some phong_half.
Proof.
  split; [exact sample_phong_half|].
  exact (set_parameter_last_write_wins white_phong 0 1 half_bytes
           [x00; x00; x80; x3f] phong_half sample_phong_half).
Defined.

Lemma set_parameter_commute_witness :
  ClosureColor.ok red_green /\
  (forall x y, ClosureColor.component red_green 0 = Some x ->
               ClosureColor.component red_green 1 = Some y ->
               ClosureColor.slots_disjoint x y) /\
  (ClosureColor.set_parameter red_green 0 0 normal_x
     ≫= fun r => ClosureColor.set_parameter r 1 0 normal_z)
  = (ClosureColor.set_parameter red_green 1 0 normal_z
     ≫= fun r => ClosureColor.set_parameter r 0 0 normal_x).
Proof.
  assert (ClosureColor.ok red_green) as Hok
    by (apply reachable_ok, sample_reachable_red_green).
  assert (forall x y, ClosureColor.component red_green 0 = Some x ->
                      ClosureColor.component red_green 1 = Some y ->
                      ClosureColor.slots_disjoint x y) as Hdis.
  { intros x y Hx Hy. vm_compute in Hx, Hy.
    injection Hx as <-. injection Hy as <-.
    left. simpl. lia. }
  split; [exact Hok|]. split; [exact Hdis|].
  exact (set_parameter_commute red_green 0 1 0 0 normal_x normal_z Hok
           (or_intror Hdis)).
Defined.

Lemma set_parameter_keeps_other_parameters_witness :
  ClosureColor.ok white_phong /\
  ClosureColor.set_parameter white_phong 0 1 half_bytes = Some phong_half /\
  ClosureColor.parameter_bytes phong_half 0 2
  = ClosureColor.parameter_bytes white_phong 0 2.
Proof.
  assert (ClosureColor.ok white_phong) as Hok
    by (apply reachable_ok, sample_reachable_phong).
  split; [exact Hok|]. split; [exact sample_phong_half|].
  destruct (set_parameter_keeps_other_parameters white_phong 0 1 half_bytes
              phong_half Hok sample_phong_half) as [Hsame _].
  apply Hsame. discriminate.
Defined.

Lemma set_parameter_defined_iff_witness :
  ClosureColor.ok white_phong /\
  Z.of_nat (length (ClosureColor.m_mem white_phong)) <= Int.INT_MAX /\
  (is_Some (ClosureColor.set_parameter white_phong 0 3 half_bytes) <->
   exists comp ty,
     ClosureColor.component white_phong 0 = Some comp /\
     0 <= 3 < ClosurePrimitive.nargs (Component.cprim comp) /\
     ClosurePrimitive.argtype (Component.cprim comp) 3 = Some ty /\
     (TypeDesc_size ty <= length half_bytes)%nat).
Proof.
  assert (ClosureColor.ok white_phong) as Hok
    by (apply reachable_ok, sample_reachable_phong).
  assert (Z.of_nat (length (ClosureColor.m_mem white_phong)) <= Int.INT_MAX)
    as Hfit by (vm_compute; discriminate).
  split; [exact Hok|]. split; [exact Hfit|].
  exact (set_parameter_defined_iff white_phong 0 3 half_bytes Hok Hfit).
Defined.

Lemma descriptor_arguments_ordered_witness :
  ClosurePrimitive.layout_ok phong /\
  (is_Some (ClosurePrimitive.argoffset phong 3)
   <-> 0 <= 3 < ClosurePrimitive.nargs phong).
Proof.
  assert (ClosurePrimitive.layout_ok phong) as Hl
    by (repeat split; reflexivity).
  split; [exact Hl|].
  destruct (descriptor_arguments_ordered phong Hl) as [Hdef _].
  apply (Hdef 3).
Defined.


(** C2: on the two-component buffer [red_green] with [m_components] at
    capacity 2, [add (white_phong)] moves the stored components, and the
    copy constructor gives both of them [memoffset] 0: the offsets of
    the result are 0, 0 and 24.  Component 1 keeps its primitive and its
    weight, but the bytes behind its offset are the normal (0,0,1) of
    component 0 and not its own normal (1,0,0): it is not the component
    it was.  So is it after [add_component] at that capacity.  With
    room for a third component the offsets are 0, 12 and 24. *)
Theorem add_at_capacity_loses_layout :
  (Component.memoffset
     <$> ClosureColor.m_components (ClosureColor.add_cap 2 red_green white_phong))
  = [0; 0; 24] /\
  ClosureColor.params_of red_green 1 = Some normal_x /\
  ClosureColor.params_of (ClosureColor.add_cap 2 red_green white_phong) 1
  = Some normal_z /\
  ClosureColor.prim (ClosureColor.add_cap 2 red_green white_phong) 1
  = ClosureColor.prim red_green 1 /\
  ClosureColor.weight (ClosureColor.add_cap 2 red_green white_phong) 1
  = ClosureColor.weight red_green 1 /\
  ~ ClosureColor.same_component red_green 1
      (ClosureColor.add_cap 2 red_green white_phong) 1 /\
  ((fun g => Component.memoffset <$> ClosureColor.m_components g)
     <$> ClosureColor.add_component_cap 2 red_green phong white (Some phong_params))
  = Some [0; 0; 24] /\
  (Component.memoffset
     <$> ClosureColor.m_components (ClosureColor.add_cap 3 red_green white_phong))
  = [0; 12; 24].
Proof.
  split; [reflexivity|]. split; [reflexivity|]. split; [reflexivity|].
  split; [reflexivity|]. split; [reflexivity|]. split; [|split; reflexivity].
  intros (p & w & bytes & _ & _ & _ & _ & Hsrc & Hdst & _).
  vm_compute in Hsrc, Hdst. congruence.
Qed.

End SampleProofs.
